(** * ophyd.v2.core: a shallow embedding and its checked properties

    The development follows [ophyd/v2/core.py]:
    - [Py]: exceptions and the outcome of a Python call;
    - [Connect]: [NotConnected], [wait_for_connection];
    - [Status]: [AsyncStatus] (callbacks, [done], [success]);
    - [Naming]: [Signal.set_name], [StandardReadable.set_name];
    - [Observe]: [observe_value], [wait_for_value];
    - [Readable]: dictionaries, [_ReadableRenamer], [merge_gathered_dicts],
      [StandardReadable.__init__] and [read]/[describe];
    - [Compare]: [_fail], [Signal.__hash__].

    Coroutines are modelled by what the event loop observes of them: how a
    task ends when left alone and how it ends when cancelled. *)

From Stdlib Require Import Ascii ZArith.
From stdpp Require Import base strings list gmap.

Set Default Proof Using "Type".
Open Scope string_scope.
Open Scope list_scope.

(** ** Python outcomes *)

Module Py.

(** The exceptions [core.py] raises, catches or lets through. *)
Inductive exn : Type :=
| NotConnected (lines : list string)
| CancelledError
| ValueError
| TypeError (msg : string)
| AssertionError (msg : string)
| UnboundLocalError (var : string)
| TimeoutError
| OtherException (name : string)
| OtherBaseException (name : string).

(** [isinstance(e, Exception)]: [asyncio.CancelledError] derives from
    [BaseException] only, as do [GeneratorExit] and the like. *)
Definition is_Exception (e : exn) : bool :=
  match e with
  | CancelledError | OtherBaseException _ => false
  | _ => true
  end.

(** [isinstance(e, asyncio.CancelledError)] *)
Definition is_CancelledError (e : exn) : bool :=
  match e with CancelledError => true | _ => false end.

Inductive result (A : Type) : Type :=
| Return (a : A)
| Raise (e : exn).
Global Arguments Return {A} a.
Global Arguments Raise {A} e.

Definition bind {A B} (r : result A) (k : A -> result B) : result B :=
  match r with
  | Return a => k a
  | Raise e => Raise e
  end.

(** [try: body except <caught>: handler] *)
Definition try_except {A} (body : result A) (caught : exn -> bool)
    (handler : exn -> result A) : result A :=
  match body with
  | Return a => Return a
  | Raise e => if caught e then handler e else Raise e
  end.

(** [assert cond, msg] *)
Definition assert_ (cond : bool) (msg : string) : result unit :=
  if cond then Return tt else Raise (AssertionError msg).

End Py.
Import Py.

Notation "x <- r ;; k" := (Py.bind r (fun x => k))
  (at level 100, r at next level, k at level 200, right associativity).
Notation "'exec' r ;; k" := (Py.bind r (fun _ => k))
  (at level 100, r at next level, k at level 200, right associativity).

(** ** Connection orchestrator *)

Module Connect.

(** An awaitable handed to [wait_for_connection]: [run_to_end] is how the
    coroutine ends when nobody cancels it, [on_cancel] how it ends when
    [CancelledError] is thrown into it ([Raise CancelledError] when it does
    not catch the cancellation). *)
Record coro : Type := Coro {
  run_to_end : result unit;
  on_cancel : result unit
}.

(** [asyncio.Task]: pending (with the cancellation-requested flag) or done. *)
Inductive task : Type :=
| Pending (c : coro) (must_cancel : bool)
| Done (r : result unit).

Definition create_task (c : coro) : task := Pending c false.

(** [t.cancel()]: a request; it does nothing to a task that is done. *)
Definition cancel (t : task) : task :=
  match t with
  | Pending c _ => Pending c true
  | Done r => Done r
  end.

(** [await t]: the loop drives the task to its end; its result is returned
    or its exception re-raised. *)
Definition await (t : task) : result unit :=
  match t with
  | Pending c true => on_cancel c
  | Pending c false => run_to_end c
  | Done r => r
  end.

Definition finish (t : task) : task := Done (await t).

(** The dictionary [ts], in insertion order. *)
Definition tasks : Type := list (string * task).

(** What the scheduler does while the orchestrator sits in
    [await asyncio.wait(...)]: [None] when it is left alone until every
    child is done, [Some finished] when it is cancelled at a moment where
    exactly the children named in [finished] are done. *)
Definition schedule : Type := option (list string).

(** [await asyncio.wait(ts.values())] (Python's library; its documentation
    reads "The aws iterable must not be empty" and it raises [ValueError]
    on an empty collection before it waits for anything). Returns the
    outcome of the await together with the tasks as they stand. *)
Definition asyncio_wait (sched : schedule) (ts : tasks) : result unit * tasks :=
  match ts with
  | [] => (Raise ValueError, ts)
  | _ :: _ =>
      match sched with
      | None => (Return tt, map (fun kt => (kt.1, finish kt.2)) ts)
      | Some finished =>
          (Raise CancelledError,
           map (fun kt => (kt.1, if bool_decide (kt.1 ∈ finished)
                                 then finish kt.2 else kt.2)) ts)
      end
  end.

(** The entry appended to [lines] for child [k] whose [NotConnected] carries
    [elines]: [f"{k}: {e.lines[0]}"] for one line, otherwise [f"{k}:"]
    followed by [f"  {line}"] for each line. *)
Definition entry (k : string) (elines : list string) : list string :=
  match elines with
  | [line] => [k +:+ ": " +:+ line]
  | _ => (k +:+ ":") :: map (fun line => "  " +:+ line) elines
  end.

(** The loop [for k, t in ts.items(): try: await t except NotConnected ...]
    with [lines] as accumulator; any other exception leaves the loop. *)
Fixpoint collect (ts : tasks) (lines : list string) : result (list string) :=
  match ts with
  | [] => Return lines
  | (k, t) :: rest =>
      match await t with
      | Return _ => collect rest lines
      | Raise (NotConnected elines) => collect rest (lines ++ entry k elines)
      | Raise e => Raise e
      end
  end.

Definition wait_for_connection (sched : schedule) (coros : list (string * coro))
    : result unit :=
  let ts := map (fun kc => (kc.1, create_task kc.2)) coros in
  match asyncio_wait sched ts with
  | (Return _, _) => Return tt
  | (Raise CancelledError, ts) =>
      let ts := map (fun kt => (kt.1, cancel kt.2)) ts in
      lines <- collect ts [] ;;
      Raise (NotConnected lines)
  | (Raise e, _) => Raise e
  end.

(** How child [kc] has ended by the time the handler awaits it. *)
Definition final (finished : list string) (kc : string * coro) : result unit :=
  if bool_decide (kc.1 ∈ finished) then run_to_end kc.2 else on_cancel kc.2.

(** A child reports when it returned or raised [NotConnected]. *)
Definition reports (r : result unit) : bool :=
  match r with
  | Return _ | Raise (NotConnected _) => true
  | Raise _ => false
  end.

(** A child failed when its connect operation raised. *)
Definition failed (r : result unit) : bool :=
  match r with
  | Return _ => false
  | Raise _ => true
  end.

(** The children that failed to connect, with the lines of their failure,
    in insertion order. *)
Definition failures (finished : list string) (coros : list (string * coro))
    : list (string * list string) :=
  omap (fun kc => match final finished kc with
                  | Raise (NotConnected elines) => Some (kc.1, elines)
                  | _ => None
                  end) coros.

(** The report: one entry per failure. *)
Definition report (fs : list (string * list string)) : list string :=
  concat (map (fun f => entry f.1 f.2) fs).

(** The tasks as the handler awaits them: started, left to the scheduler,
    then cancelled. *)
Definition prepared (finished : list string) (kc : string * coro) : task :=
  cancel (if bool_decide (kc.1 ∈ finished)
          then finish (create_task kc.2) else create_task kc.2).

(** The three children of the examples: [a] is connected when the
    cancellation arrives, [b] and [c] turn it into [NotConnected]. *)
Definition three_children : list (string * coro) :=
  [("a", Coro (Return tt) (Raise (NotConnected ["ca://A"])));
   ("b", Coro (Return tt) (Raise (NotConnected ["ca://B"])));
   ("c", Coro (Return tt) (Raise (NotConnected ["x: ca://X"; "y: ca://Y"])))].

(** A child that lets the cancellation through. *)
Definition plain_child : coro := Coro (Return tt) (Raise CancelledError).

End Connect.

(** ** AsyncStatus *)

Module Status.

(** A callback is a [Callable[[Status], None]]: it is identified by a
    number, and a call of it returns [None] or raises [cb_raises]. *)
Record callback : Type := Callback {
  cb_id : nat;
  cb_raises : option exn
}.

(** How a call of the callback ends. *)
Definition cb_outcome (cb : callback) : result unit :=
  match cb_raises cb with
  | Some e => Raise e
  | None => Return tt
  end.

Section AsyncStatus.
Context {T : Type}.

(** [task] is [None] while the wrapped operation is pending and holds its
    outcome once it is done; a cancelled task holds [Raise CancelledError].
    [calls] logs each call [callback(self)], however it ends, with the
    task as the callback sees it. *)
Record AsyncStatus : Type := MkStatus {
  task : option (result T);
  _callbacks : list callback;
  calls : list (callback * option (result T))
}.

(** [__init__]: the awaitable is wrapped (or is a task already, possibly a
    finished one) and the callback list starts empty. *)
Definition __init__ (awaitable : option (result T)) : AsyncStatus :=
  {| task := awaitable; _callbacks := []; calls := [] |}.

(** [task.done()] and [task.cancelled()] *)
Definition done (s : AsyncStatus) : bool :=
  match task s with Some _ => true | None => false end.

Definition cancelled (s : AsyncStatus) : bool :=
  match task s with Some (Raise CancelledError) => true | _ => false end.

(** [callback(self)]: the status after the call, and the call's outcome. *)
Definition invoke (s : AsyncStatus) (cb : callback) : AsyncStatus * result unit :=
  ({| task := task s; _callbacks := _callbacks s;
      calls := calls s ++ [(cb, task s)] |},
   cb_outcome cb).

Definition add_callback (cb : callback) (s : AsyncStatus)
    : AsyncStatus * result unit :=
  if done s then invoke s cb
  else ({| task := task s; _callbacks := _callbacks s ++ [cb];
           calls := calls s |}, Return tt).

(** [for callback in self._callbacks: callback(self)]: nothing catches
    what a callback raises, so the loop is left at the first that does. *)
Fixpoint call_each (cbs : list callback) (s : AsyncStatus)
    : AsyncStatus * result unit :=
  match cbs with
  | [] => (s, Return tt)
  | cb :: rest =>
      match invoke s cb with
      | (s', Return _) => call_each rest s'
      | (s', Raise e) => (s', Raise e)
      end
  end.

Definition _run_callbacks (s : AsyncStatus) : AsyncStatus * result unit :=
  if negb (cancelled s) then call_each (_callbacks s) s else (s, Return tt).

(** [task.result()]: the value, the task's exception re-raised, or
    [InvalidStateError] on a pending task. *)
Definition task_result (s : AsyncStatus) : result T :=
  match task s with
  | Some r => r
  | None => Raise (OtherException "InvalidStateError")
  end.

Definition success (s : AsyncStatus) : result bool :=
  exec assert_ (done s) "Status has not completed yet" ;;
  try_except (exec task_result s ;; Return true)
    (fun e => is_Exception e || is_CancelledError e)
    (fun _ => Return false).

(** What happens to a status: user code registers a callback, the wrapped
    operation ends, the loop runs the done-callback installed by
    [__init__] (once, after the task is done). What a callback raises goes
    to the caller of [add_callback], or to the loop's exception handler
    from [_run_callbacks]; the status stays as the call left it. *)
Inductive event : Type :=
| AddCallback (cb : callback)
| TaskEnds (r : result T)
| DoneCallback.

Definition step (s : AsyncStatus) (e : event) : AsyncStatus :=
  match e with
  | AddCallback cb => (add_callback cb s).1
  | TaskEnds r =>
      if done s then s
      else {| task := Some r; _callbacks := _callbacks s; calls := calls s |}
  | DoneCallback => (_run_callbacks s).1
  end.

Definition run (es : list event) (s : AsyncStatus) : AsyncStatus :=
  fold_left step es s.

(** The life of a status: callbacks [early] are registered while the task
    is pending, the task ends with [r], callbacks [mid] are registered
    before the loop gets to run the done-callback, and [late] after it. *)
Definition life (early : list callback) (r : result T) (mid late : list callback)
    : list event :=
  map AddCallback early ++ [TaskEnds r] ++ map AddCallback mid
    ++ [DoneCallback] ++ map AddCallback late.

(** The task ended by being cancelled. *)
Definition ends_cancelled (r : result T) : bool :=
  match r with Raise CancelledError => true | _ => false end.

(** The callbacks called, in the order of the calls. *)
Definition called (s : AsyncStatus) : list callback := (calls s).*1.

(** The callbacks of [cbs] up to and including the first that raises. *)
Fixpoint until_raise (cbs : list callback) : list callback :=
  match cbs with
  | [] => []
  | cb :: rest =>
      cb :: match cb_raises cb with
            | None => until_raise rest
            | Some _ => []
            end
  end.

(** A callback that returns. *)
Definition quiet (n : nat) : callback := Callback n None.

End AsyncStatus.
Global Arguments AsyncStatus : clear implicits.
Global Arguments event : clear implicits.

End Status.

(** ** Device names *)

Module Naming.

(** [s.rstrip('_')] *)
Fixpoint rstrip_ (s : string) : string :=
  match s with
  | EmptyString => EmptyString
  | String a rest =>
      match rstrip_ rest with
      | EmptyString => if Ascii.eqb a "_"%char then EmptyString else String a EmptyString
      | r => String a r
      end
  end.

(** A device with its [_name], whether its [parent] attribute has been
    assigned (the tree itself says who the parent is), and, for a
    [StandardReadable], its [__dict__] in insertion order; an attribute
    that is not a [Device] is [None]. *)
#[local] Set Warnings "-register-all".
Inductive device : Type :=
| Signal (_name : string) (parent : bool)
| StandardReadable (_name : string) (parent : bool)
    (dict : list (string * option device)).

Definition name (d : device) : string :=
  match d with
  | Signal n _ => n
  | StandardReadable n _ _ => n
  end.

(** [attr.parent = self] *)
Definition set_parent (d : device) : device :=
  match d with
  | Signal n _ => Signal n true
  | StandardReadable n _ dict => StandardReadable n true dict
  end.

(** Truth value of a [str]: non-empty. *)
Definition truthy (s : string) : bool :=
  match s with EmptyString => false | String _ _ => true end.

(** [d.set_name(name)], dispatched on the class of [d]:
    [Signal.set_name] assigns; [StandardReadable.set_name] assigns when
    [name and not self._name] and then names every [Device] attribute. *)
Fixpoint set_name (new : string) (d : device) : device :=
  match d with
  | Signal _ p => Signal new p
  | StandardReadable n p dict =>
      if truthy new && negb (truthy n) then
        StandardReadable new p
          (map (fun kv =>
                  match kv with
                  | (attr_name, Some attr) =>
                      (attr_name,
                       Some (set_parent
                               (set_name (new +:+ "-" +:+ rstrip_ attr_name) attr)))
                  | (attr_name, None) => (attr_name, None)
                  end) dict)
      else d
  end.

End Naming.

(** ** Subscription bridge *)

Module Observe.

(** The calls [observe_value] makes on its signal. *)
Inductive sigcall : Type :=
| SubscribeValue (cb : nat)
| ClearSub (cb : nat).

#[global] Instance sigcall_eq_dec : EqDecision sigcall.
Proof. solve_decision. Defined.

(** Where the async generator [observe_value] stands. *)
Inductive gen_state : Type :=
| Created        (* the body has not started *)
| AwaitingGet    (* suspended in [await q.get()]: the consumer awaits a value *)
| AtYield        (* suspended at [yield]: the consumer holds a value *)
| Finished.

Section Values.
Context {V : Type}.

(** The signal with one generator observing it. [subscribers] is the
    signal's set of active value-change subscribers; [cb] stands for the
    bound method [q.put_nowait] of the generator's own queue [q]. *)
Record world : Type := World {
  subscribers : gset nat;
  cb : nat;
  q : list V;
  gen : gen_state;
  sig_calls : list sigcall;
  yielded : list V
}.

Definition set_gen (g : gen_state) (w : world) : world :=
  World (subscribers w) (cb w) (q w) g (sig_calls w) (yielded w).

(** Modelled from the spec: [SignalR.subscribe_value] is abstract in
    [core.py] and implemented in [ophyd.v2.epics]; a Signal keeps "a set of
    active value-change subscribers" and subscribing adds the callback. *)
Definition subscribe_value (w : world) : world :=
  World ({[cb w]} ∪ subscribers w) (cb w) (q w) (gen w)
        (sig_calls w ++ [SubscribeValue (cb w)]) (yielded w).

(** Modelled from the spec: [SignalR.clear_sub] ("Remove a subscription."),
    abstract in [core.py]; it removes the callback from the set. *)
Definition clear_sub (w : world) : world :=
  World (subscribers w ∖ {[cb w]}) (cb w) (q w) (gen w)
        (sig_calls w ++ [ClearSub (cb w)]) (yielded w).

(** [yield await q.get()]: hand over the oldest queued value, or suspend. *)
Definition get_and_yield (w : world) : world :=
  match q w with
  | v :: rest =>
      World (subscribers w) (cb w) rest AtYield (sig_calls w) (yielded w ++ [v])
  | [] => set_gen AwaitingGet w
  end.

(** The [finally] clause, after which the generator is finished. *)
Definition finally (w : world) : world := set_gen Finished (clear_sub w).

(** What reaches the generator. [Next]: the consumer pulls ([__anext__]).
    [Notify v]: the signal calls its subscribers with [v]. [Cancel]: the
    consumer is cancelled while it awaits a value, so [CancelledError] is
    raised at [await q.get()]. [Close]: [aclose()], called by the consumer
    or by the loop's finalizer for an abandoned generator, raises
    [GeneratorExit] at the [yield]. [Throw]: [athrow(e)] raises [e] at the
    [yield]. *)
Inductive event : Type :=
| Next
| Notify (v : V)
| Cancel
| Close
| Throw (e : exn).

Definition observe_value (w : world) (e : event) : world :=
  match e, gen w with
  | Next, Created =>
      (* q = asyncio.Queue(); signal.subscribe_value(q.put_nowait); try: ... *)
      get_and_yield (subscribe_value w)
  | Next, AtYield => get_and_yield w
  | Next, (AwaitingGet | Finished) => w
  | Notify v, _ =>
      if bool_decide (cb w ∈ subscribers w) then
        (* q.put_nowait(v) wakes a waiting getter *)
        let w' := World (subscribers w) (cb w) (q w ++ [v]) (gen w)
                        (sig_calls w) (yielded w) in
        match gen w with
        | AwaitingGet => get_and_yield w'
        | _ => w'
        end
      else w
  | Cancel, AwaitingGet => finally w
  | Cancel, _ => w
  | (Close | Throw _), AtYield => finally w
  | (Close | Throw _), Created => set_gen Finished w
  | (Close | Throw _), (AwaitingGet | Finished) => w
  end.

Definition consume (es : list event) (w : world) : world :=
  fold_left observe_value es w.

(** A signal with subscribers [subs] and a generator just created on it. *)
Definition fresh (subs : gset nat) (c : nat) : world :=
  World subs c [] Created [] [].

(** The generator has finished after one [subscribe_value] and one
    [clear_sub] of the callback [c], which the signal no longer holds. *)
Definition released (c : nat) (w : world) : Prop :=
  gen w = Finished
  /\ sig_calls w = [SubscribeValue c; ClearSub c]
  /\ c ∉ subscribers w.

(** What holds of the signal at every point of a consumption that started
    from subscribers [subs] with the generator's callback [c] not among
    them. *)
Definition tracked (subs : gset nat) (c : nat) (w : world) : Prop :=
  cb w = c /\
  match gen w with
  | Created => subscribers w = subs /\ sig_calls w = []
  | AwaitingGet | AtYield =>
      subscribers w = {[c]} ∪ subs /\ sig_calls w = [SubscribeValue c]
  | Finished =>
      subscribers w = subs
      /\ (sig_calls w = [] \/ sig_calls w = [SubscribeValue c; ClearSub c])
  end.

(** How many times the generator has unsubscribed its callback. *)
Definition unsubscribed_times (w : world) : nat :=
  length (filter (fun sc => sc = ClearSub (cb w)) (sig_calls w)).

Context `{EqDecision V}.

(** The [match] argument of [wait_for_value]. *)
Inductive pyobj : Type :=
| Callable (f : V -> bool)
| Plain (v : V).

Definition callable (o : pyobj) : bool :=
  match o with Callable _ => true | Plain _ => false end.

(** [o(value)], taken for its truth value. *)
Definition call (o : pyobj) (value : V) : result bool :=
  match o with
  | Callable f => Return (f value)
  | Plain _ => Raise (TypeError "object is not callable")
  end.

(** [value == o] *)
Definition py_eq (value : V) (o : pyobj) : bool :=
  match o with
  | Plain v => bool_decide (value = v)
  | Callable _ => false
  end.

(** The local variable [match] of [_wait_for_value]. The [def match]
    statement in its body binds the name there, so throughout that body
    [match] is this local, not the parameter of the enclosing
    [wait_for_value]; it is unbound when the body starts. *)
Definition frame : Type := option pyobj.

Definition load_match (fr : frame) : result pyobj :=
  match fr with
  | Some o => Return o
  | None => Raise (UnboundLocalError "match")
  end.

(** How a wait over the values delivered so far stands. *)
Inductive waited : Type :=
| Matched (consumed : nat)
| StillWaiting.

(** [async for value in observe_value(signal): if match(value): return]
    over the values the signal delivers before the deadline. *)
Fixpoint first_match (m : pyobj) (values : list V) (i : nat) : result waited :=
  match values with
  | [] => Return StillWaiting
  | value :: rest =>
      b <- call m value ;;
      if b then Return (Matched (S i)) else first_match m rest (S i)
  end.

Definition _wait_for_value (values : list V) : result waited :=
  let fr : frame := None in
  m <- load_match fr ;;
  fr <- (if negb (callable m) then
           dflt <- load_match fr ;;
           Return (Some (Callable (fun value => py_eq value dflt)))
         else Return fr) ;;
  m <- load_match fr ;;
  first_match m values 0.

(** [asyncio.wait_for(aw, timeout)]: the awaitable's outcome, or
    [TimeoutError] when a deadline is set and it is still waiting. *)
Definition wait_for (aw : result waited) (timeout : option nat) : result waited :=
  r <- aw ;;
  match r, timeout with
  | StillWaiting, Some _ => Raise TimeoutError
  | _, _ => Return r
  end.

(** [wait_for_value(signal, match, timeout)]; the parameter [match] only
    goes into the [__name__] given to the inner coroutine function. *)
Definition wait_for_value (match_ : pyobj) (timeout : option nat)
    (values : list V) : result waited :=
  wait_for (_wait_for_value values) timeout.

(** What the docstring of [wait_for_value] describes: "If a callable, it
    should return True if the value matches. If not callable then value
    will be checked for equality with match." *)
Definition documented_wait_for_value (match_ : pyobj) (timeout : option nat)
    (values : list V) : result waited :=
  let m := if callable match_ then match_
           else Callable (fun value => py_eq value match_) in
  wait_for (first_match m values 0) timeout.

End Values.
Global Arguments world : clear implicits.
Global Arguments event : clear implicits.
Global Arguments pyobj : clear implicits.

End Observe.

(** ** Composite readable *)

Module Readable.

Section Dict.
Context {V : Type}.

(** A Python [dict] with [str] keys: its items in insertion order, each
    key once. *)
Definition dict : Type := list (string * V).

Definition keys (d : dict) : list string := map fst d.
Definition values (d : dict) : list V := map snd d.

(** [d.get(k)] *)
Fixpoint get (k : string) (d : dict) : option V :=
  match d with
  | [] => None
  | (k', v) :: rest => if decide (k' = k) then Some v else get k rest
  end.

(** [d[k] = v]: an existing key keeps its place and takes the new value, a
    new key goes last. *)
Fixpoint setitem (k : string) (v : V) (d : dict) : dict :=
  match d with
  | [] => [(k, v)]
  | (k', v') :: rest =>
      if decide (k' = k) then (k, v) :: rest else (k', v') :: setitem k v rest
  end.

(** [d.update(other)] *)
Definition update (d other : dict) : dict :=
  fold_left (fun acc kv => setitem kv.1 kv.2 acc) other d.

(** [_ReadableRenamer._rename]: [{self.device.name: v for v in d.values()}] *)
Definition _rename (device_name : string) (d : dict) : dict :=
  fold_left (fun acc v => setitem device_name v acc) (values d) [].

(** [merge_gathered_dicts]: [asyncio.gather] returns the results in the
    order of the awaitables. *)
Definition merge_gathered_dicts (results : list dict) : dict :=
  fold_left update results [].

(** The dictionary as a finite map. *)
Definition to_map (d : dict) : gmap string V := list_to_map d.

End Dict.
Global Arguments dict : clear implicits.

Section StandardReadable.
Context {Reading Descriptor : Type}.

(** A child signal as [read] and [describe] see it: what [read(cached)]
    and [describe()] return. *)
Record signal : Type := Sig {
  sig_read : option bool -> dict Reading;
  sig_describe : dict Descriptor
}.

(** The members of [_read_signals] and [_conf_signals]: a readable as
    passed in, or one wrapped by [_UncachedSignal] or by
    [_ReadableRenamer] (whose [device] is the composite itself). *)
Inductive AsyncReadable : Type :=
| AsPassed (readable : signal)
| _UncachedSignal (signal_ : signal)
| _ReadableRenamer (readable : signal).

Record StandardReadable : Type := MkReadable {
  _init_prefix : string;
  _read_signals : list AsyncReadable;
  _conf_signals : list AsyncReadable;
  _staged : bool;
  _name : string
}.

(** [set_name], as far as the composite's own name goes. *)
Definition set_name (name : string) (self : StandardReadable) : StandardReadable :=
  if Naming.truthy name && negb (Naming.truthy (_name self)) then
    MkReadable (_init_prefix self) (_read_signals self) (_conf_signals self)
               (_staged self) name
  else self.

Definition __init__ (prefix name : string) (primary : option signal)
    (read read_uncached config : list signal) : StandardReadable :=
  let _read_signals := map AsPassed read ++ map _UncachedSignal read_uncached in
  let _read_signals :=
    match primary with
    | Some p => [_ReadableRenamer p] ++ _read_signals
    | None => _read_signals
    end in
  set_name name (MkReadable prefix _read_signals (map AsPassed config) false "").

(** [sig.read()] and [sig.describe()] for a member of [_read_signals] of
    the composite [self]. *)
Definition read_of (self : StandardReadable) (r : AsyncReadable) : dict Reading :=
  match r with
  | AsPassed s => sig_read s None
  | _UncachedSignal s => sig_read s (Some false)
  | _ReadableRenamer s => _rename (_name self) (sig_read s None)
  end.

Definition describe_of (self : StandardReadable) (r : AsyncReadable)
    : dict Descriptor :=
  match r with
  | AsPassed s => sig_describe s
  | _UncachedSignal s => sig_describe s
  | _ReadableRenamer s => _rename (_name self) (sig_describe s)
  end.

Definition read (self : StandardReadable) : dict Reading :=
  merge_gathered_dicts (map (read_of self) (_read_signals self)).

Definition describe (self : StandardReadable) : dict Descriptor :=
  merge_gathered_dicts (map (describe_of self) (_read_signals self)).

End StandardReadable.
Global Arguments signal : clear implicits.
Global Arguments AsyncReadable : clear implicits.
Global Arguments StandardReadable : clear implicits.

(** The signals of the examples: a mover's readback and its velocity. *)
Definition readback : signal nat string :=
  Sig (fun _ => [("mover-readback", 15%nat)]) [("mover-readback", "number")].
Definition velocity : signal nat string :=
  Sig (fun _ => [("mover-velocity", 2%nat)]) [("mover-velocity", "number")].

End Readable.

(** ** Comparing and hashing signals *)

Module Compare.

Open Scope Z_scope.

(** An object: its identity [id] and its class, a [Signal] or, for a
    non-Signal, an [int] with its value. *)
Inductive class : Type :=
| SignalClass
| IntClass (n : Z).

Record object : Type := Obj { id : Z; class_of : class }.

Definition isinstance_Signal (o : object) : bool :=
  match class_of o with SignalClass => true | IntClass _ => false end.

(** What a rich-comparison method returns. *)
Inductive answer : Type :=
| NotImplemented
| Bool (b : bool).

Definition _fail (self other : object) : result answer :=
  if isinstance_Signal other then
    Raise (TypeError
      "Can't compare two Signals, did you mean await signal.get_value() instead?")
  else Return NotImplemented.

(** [__lt__ = __le__ = __eq__ = __ge__ = __gt__ = __ne__ = _fail] *)
Definition __lt__ := _fail.
Definition __le__ := _fail.
Definition __eq__ := _fail.
Definition __ge__ := _fail.
Definition __gt__ := _fail.
Definition __ne__ := _fail.

Inductive operator : Type := Lt | Le | Eq | Ge | Gt | Ne.

Definition Signal_method (op : operator) : object -> object -> result answer :=
  match op with
  | Lt => __lt__ | Le => __le__ | Eq => __eq__
  | Ge => __ge__ | Gt => __gt__ | Ne => __ne__
  end.

(** [hash(n)] of an [int] on a 64-bit build: the value modulo the prime
    [2^61 - 1], with the sign kept and [-1] replaced by [-2]. *)
Definition hash_modulus : Z := 2 ^ 61 - 1.

Definition hash_int (n : Z) : Z :=
  let h := Z.sgn n * (Z.abs n mod hash_modulus) in
  if h =? -1 then -2 else h.

(** [Signal.__hash__]: [hash(id(self))] *)
Definition __hash__ (self : object) : Z := hash_int (id self).

(** [hash(o)] *)
Definition hash (o : object) : Z :=
  match class_of o with
  | SignalClass => __hash__ o
  | IntClass n => hash_int n
  end.

(** [type(a).__eq__(a, b)] *)
Definition eq_method (a b : object) : result answer :=
  match class_of a with
  | SignalClass => __eq__ a b
  | IntClass n =>
      match class_of b with
      | IntClass m => Return (Bool (n =? m))
      | SignalClass => Return NotImplemented
      end
  end.

(** [a == b]: the method of [a], then the reflected one, then identity. *)
Definition py_eq (a b : object) : result bool :=
  r <- eq_method a b ;;
  match r with
  | Bool t => Return t
  | NotImplemented =>
      r' <- eq_method b a ;;
      match r' with
      | Bool t => Return t
      | NotImplemented => Return (id a =? id b)
      end
  end.

(** A [set] (or the keys of a [dict]): the stored hashes and objects. A
    lookup of [x] may meet any entry; an entry matches when it is [x]
    itself, or when its hash equals that of [x] and [entry == x]. *)
Definition pyset : Type := list (Z * object).

Fixpoint contains (x : object) (h : Z) (s : pyset) : result bool :=
  match s with
  | [] => Return false
  | (h', y) :: rest =>
      if id y =? id x then Return true
      else if h' =? h then
        same <- py_eq y x ;;
        if same then Return true else contains x h rest
      else contains x h rest
  end.

(** [s.add(x)] *)
Definition add (s : pyset) (x : object) : result pyset :=
  found <- contains x (hash x) s ;;
  Return (if found then s else s ++ [(hash x, x)]).

(** [set(xs)] *)
Fixpoint add_all (s : pyset) (xs : list object) : result pyset :=
  match xs with
  | [] => Return s
  | x :: rest => s' <- add s x ;; add_all s' rest
  end.

(** The Signal instance with identity [i], and its entry in a set. *)
Definition Signal (i : Z) : object := Obj i SignalClass.
Definition stored (i : Z) : Z * object := (hash (Signal i), Signal i).

(** [id(o)] is an address; it is below the hash modulus. *)
Definition address (i : Z) : Prop := 0 <= i < hash_modulus.

End Compare.

(** ** Connecting a device tree *)

Module Tree.
Import Connect.

(** A device as [connect] sees it: a Signal, whose [connect(prefix, sim)]
    is implemented outside [core.py] and is given by the coroutine it
    makes, or a [StandardReadable] with its [_init_prefix] and its
    [__dict__] in insertion order ([None] for an attribute that is not a
    [Device]). *)
#[local] Set Warnings "-register-all".
Inductive dev : Type :=
| Sig (connect_ : string -> bool -> coro)
| Std (_init_prefix : string) (dict : list (string * option dev)).

(** The dictionary comprehension of [connect_children]:
    [{k: c.connect(prefix, sim) for k, c in device.__dict__.items()
      if k != "parent" and isinstance(c, Device)}],
    with [connect_of k c] for [c.connect(prefix, sim)]. *)
Definition children_coros (connect_of : string -> dev -> coro)
    (dict : list (string * option dev)) : list (string * coro) :=
  omap (fun ka => if decide (ka.1 = "parent") then None
                  else c ← ka.2; Some (ka.1, connect_of ka.1 c)) dict.

(** The children named in [names] that are done when a cancellation
    arrives at the device at [path]; [fin] tells it of every device, by
    its path of attribute names. *)
Definition finished_at (fin : list string -> bool) (path : list string)
    (names : list string) : list string :=
  filter (fun k => fin (path ++ [k])) names.

(** [d.connect(prefix, sim)] as a coroutine. For a [StandardReadable] it
    is [connect_children(self, prefix + self._init_prefix, sim)], that is
    [wait_for_connection] over the children: left alone it runs
    unscheduled, cancelled it runs with the children done by then. *)
Fixpoint connect (fin : list string -> bool) (path : list string) (d : dev)
    (prefix : string) (sim : bool) {struct d} : coro :=
  match d with
  | Sig connect_ => connect_ prefix sim
  | Std _init_prefix dict =>
      let coros :=
        children_coros
          (fun k c => connect fin (path ++ [k]) c (prefix +:+ _init_prefix) sim)
          dict in
      Coro (wait_for_connection None coros)
           (wait_for_connection (Some (finished_at fin path coros.*1)) coros)
  end.

(** [connect_children(device, prefix, sim)] under a schedule. *)
Definition connect_children (fin : list string -> bool) (path : list string)
    (dict : list (string * option dev)) (prefix : string) (sim : bool)
    (sched : schedule) : result unit :=
  wait_for_connection sched
    (children_coros (fun k c => connect fin (path ++ [k]) c prefix sim) dict).

(** Whether [connect_children] finds a child at all. *)
Definition has_child (dict : list (string * option dev)) : bool :=
  existsb (fun ka => negb (bool_decide (ka.1 = "parent"))
                     && bool_decide (is_Some ka.2)) dict.

(** How the device at [path] has ended when its parent's handler awaits
    it: by itself when it was done, by the cancellation otherwise. *)
Definition outcome (fin : list string -> bool) (path : list string) (d : dev)
    (prefix : string) (sim : bool) : result unit :=
  let c := connect fin path d prefix sim in
  if fin path then run_to_end c else on_cancel c.

(** A tree that keeps the contract of [Device.connect]: each Signal's
    connect returns or raises [NotConnected], cancelled or not, and each
    [StandardReadable] has a child to connect. *)
Inductive well_behaved : dev -> Prop :=
| wb_Sig connect_ :
    (forall prefix sim, reports (run_to_end (connect_ prefix sim))
                        /\ reports (on_cancel (connect_ prefix sim))) ->
    well_behaved (Sig connect_)
| wb_Std _init_prefix dict :
    has_child dict = true ->
    Forall (fun ka => ka.1 <> "parent" -> forall c, ka.2 = Some c ->
              well_behaved c) dict ->
    well_behaved (Std _init_prefix dict).

(** The line of a failure [m] met under the attribute names [ks]. *)
Definition path_line (ks : list string) (m : string) : string :=
  foldr (fun k line => k +:+ ": " +:+ line) m ks.

(** The device at [path] is cancelled while all of its descendants are
    connected but the Signal under the attribute names [ks], whose
    cancelled connect raises [NotConnected] with the one line [m]. *)
Inductive sole_failure (fin : list string -> bool) (sim : bool)
    : list string -> dev -> string -> list string -> string -> Prop :=
| sole_Sig path connect_ prefix m :
    on_cancel (connect_ prefix sim) = Raise (NotConnected [m]) ->
    sole_failure fin sim path (Sig connect_) prefix [] m
| sole_Std path _init_prefix before k child after prefix ks m :
    k <> "parent" ->
    fin (path ++ [k]) = false ->
    Forall (fun ka => ka.1 <> "parent" -> forall c, ka.2 = Some c ->
              outcome fin (path ++ [ka.1]) c (prefix +:+ _init_prefix) sim
              = Return tt) (before ++ after) ->
    sole_failure fin sim (path ++ [k]) child (prefix +:+ _init_prefix) ks m ->
    sole_failure fin sim path
      (Std _init_prefix (before ++ (k, Some child) :: after)) prefix (k :: ks) m.

(** The devices of the examples: a sample stage with two movers, each with
    a setpoint and a readback that turn a cancellation into
    [NotConnected] naming their source. *)
Definition pv (suffix : string) : dev :=
  Sig (fun prefix _ =>
         Coro (Return tt) (Raise (NotConnected ["ca://" +:+ prefix +:+ suffix]))).
Definition mover (prefix : string) : dev :=
  Std prefix [("setpoint", Some (pv "Setpoint")); ("readback", Some (pv "Readback"));
              ("_success", None)].
Definition stage : dev :=
  Std "BL:" [("x", Some (mover "X:")); ("y", Some (mover "Y:"))].

End Tree.

(** ** Names along a path of attributes *)

Module Paths.
Import Naming.

(** [getattr(d, k)] for an attribute held in the instance [__dict__];
    [None] when there is none or when it is not a [Device]. *)
Fixpoint attribute (k : string) (dict : list (string * option device))
    : option device :=
  match dict with
  | [] => None
  | (k', a) :: rest => if decide (k' = k) then a else attribute k rest
  end.

(** The device reached from [d] through the attributes [ks]. *)
Fixpoint descend (ks : list string) (d : device) : option device :=
  match ks with
  | [] => Some d
  | k :: ks' =>
      match d with
      | StandardReadable _ _ dict => c ← attribute k dict; descend ks' c
      | Signal _ _ => None
      end
  end.



(** [n] underscores. *)
Fixpoint underscores (n : nat) : string :=
  match n with
  | O => EmptyString
  | S n' => String "_"%char (underscores n')
  end.

(** A sample stage before it is named: two movers, each with a setpoint
    and a stop signal. *)
Definition unnamed_mover : device :=
  StandardReadable "" false
    [("setpoint", Some (Signal "" false)); ("stop_", Some (Signal "" false));
     ("_success", None)].
Definition unnamed_stage : device :=
  StandardReadable "" false
    [("x", Some unnamed_mover); ("y", Some unnamed_mover)].

End Paths.

(** ** The order of observed values *)

Module Order.
Import Observe.

Section Values.
Context {V : Type}.

(** The consumer pulls or the signal notifies: nothing ends the
    consumption. *)
Definition goes_on (e : event V) : bool :=
  match e with
  | Next | Notify _ => true
  | Cancel | Close | Throw _ => false
  end.

(** The values the signal notified, in the order of the notifications. *)
Definition notified (es : list (event V)) : list V :=
  omap (fun e => match e with Notify v => Some v | _ => None end) es.

(** The number of pulls. *)
Definition is_pull (e : event V) : bool :=
  match e with Next => true | _ => false end.

Definition pulls (es : list (event V)) : nat :=
  length (filter (fun e => is_pull e) es).

(** One when the generator waits for a value, to answer a pull. *)
Definition awaiting (w : world V) : nat :=
  match gen w with AwaitingGet => 1 | _ => 0 end.

(** The state of a consumption that goes on: subscribed, not finished,
    and with an empty queue whenever the generator waits for a value. *)
Definition running (w : world V) : Prop :=
  cb w ∈ subscribers w
  /\ (gen w = AwaitingGet /\ q w = [] \/ gen w = AtYield).

End Values.

End Order.

(** ** Configuration readings and the keys of a merge *)

Module Config.
Import Readable.

Section Configuration.
Context {Reading Descriptor : Type}.

Definition describe_configuration (self : StandardReadable Reading Descriptor)
    : dict Descriptor :=
  merge_gathered_dicts (map (describe_of self) (_conf_signals self)).

Definition read_configuration (self : StandardReadable Reading Descriptor)
    : dict Reading :=
  merge_gathered_dicts (map (read_of self) (_conf_signals self)).

(** The signal behind a member of [_read_signals] or [_conf_signals], and
    the [cached] argument its [read] is called with. *)
Definition signal_of (r : AsyncReadable Reading Descriptor)
    : signal Reading Descriptor :=
  match r with
  | AsPassed s | _UncachedSignal s | _ReadableRenamer s => s
  end.

Definition cached_of (r : AsyncReadable Reading Descriptor) : option bool :=
  match r with
  | _UncachedSignal _ => Some false
  | AsPassed _ | _ReadableRenamer _ => None
  end.

(** The signal describes what it reads: same keys, in the same order. *)
Definition consistent (r : AsyncReadable Reading Descriptor) : Prop :=
  keys (sig_read (signal_of r) (cached_of r)) = keys (sig_describe (signal_of r)).

End Configuration.

(** Keys in the order they are first seen, each once. *)
Definition first_seen (ks : list string) : list string :=
  foldl (fun seen k => if decide (k ∈ seen) then seen else seen ++ [k]) [] ks.

End Config.

(** ** Signals among other keys *)

Module Keys.
Import Compare.
Open Scope Z_scope.

(** The objects [xs], signals and integers, are told apart by [id], and
    the signals among them sit at addresses. *)
Definition distinct_objects (xs : list object) : Prop :=
  (forall x y, x ∈ xs -> y ∈ xs -> id x = id y -> x = y)
  /\ Forall (fun x => isinstance_Signal x = true -> address (id x)) xs.

(** Two signals, the integer whose value is the first signal's address,
    and the same integer value held by another object. *)
Definition mixed_keys : list object :=
  [Signal 140234; Obj 7 (IntClass 140234); Signal 140298; Obj 8 (IntClass 140234)].

End Keys.

(** ** DeviceCollector: waiting for the connect tasks *)

Module Collector.
Import Connect.

(** The line feed. *)
Definition nl : string := String (Ascii.ascii_of_nat 10) EmptyString.

(** [str(e)] of a [NotConnected]: ["\n".join(self.lines)] *)
Fixpoint NotConnected___str__ (lines : list string) : string :=
  match lines with
  | [] => EmptyString
  | [line] => line
  | line :: rest => line +:+ nl +:+ NotConnected___str__ rest
  end.

Section WaitForTasks.
(** Python's [str(n)] of a length, [type(e).__name__], [str(e)] of an
    exception other than [NotConnected] (and of [None]), and
    [str.splitlines]. *)
Variable str_len : nat -> string.
Variable type_name : option exn -> string.
Variable str_other : option exn -> string.
Variable splitlines : string -> list string.

Definition str (e : option exn) : string :=
  match e with
  | Some (NotConnected lines) => NotConnected___str__ lines
  | _ => str_other e
  end.

(** [task.exception()] of a task that ended with [r]: the exception, [None]
    when it returned, and [CancelledError] raised when it was cancelled. *)
Definition exception (r : result unit) : result (option exn) :=
  match r with
  | Return _ => Return None
  | Raise CancelledError => Raise CancelledError
  | Raise e => Return (Some e)
  end.

(** [list(t for t in done if t.exception())]; an exception object is
    true. *)
Fixpoint with_exception (done : list (result unit * string))
    : result (list (result unit * string)) :=
  match done with
  | [] => Return []
  | t :: rest =>
      e <- exception t.1 ;;
      kept <- with_exception rest ;;
      Return (match e with Some _ => t :: kept | None => kept end)
  end.

(** [for t in pending: with suppress(Exception): await t], on tasks that
    were all cancelled just before. *)
Fixpoint await_suppressed (pending : list (coro * string)) : result unit :=
  match pending with
  | [] => Return tt
  | t :: rest =>
      exec try_except (on_cancel t.1) is_Exception (fun _ => Return tt) ;;
      await_suppressed rest
  end.

(** One round of the last loop: the lines added to [msg] for [task]. *)
Definition describe_task (msg : string) (task : result unit * string)
    : result string :=
  e <- exception task.1 ;;
  let msg := msg +:+ nl +:+ "  " +:+ task.2 +:+ ": " +:+ type_name e in
  let lines := splitlines (str e) in
  Return (if bool_decide (length lines <= 1) then msg +:+ str e
          else msg +:+ String.concat ""
                         (map (fun line => nl +:+ "    " +:+ line) lines)).

Fixpoint describe_tasks (msg : string) (not_connected : list (result unit * string))
    : result string :=
  match not_connected with
  | [] => Return msg
  | task :: rest => msg <- describe_task msg task ;; describe_tasks msg rest
  end.

(** [_wait_for_tasks(tasks)], given how [asyncio.wait(tasks, timeout)]
    came back: [done] holds the tasks that are done, with their outcomes,
    and [pending] those still running, each paired with its name
    [tasks[task]], in the order the two sets are gone through. The result
    is the message handed to [logging.error], if any. The pending tasks
    in [not_connected] are the task objects that are cancelled and
    awaited in between: when their exception is asked for they have ended
    the way cancelled tasks do. *)
Definition _wait_for_tasks (done : list (result unit * string))
    (pending : list (coro * string)) : result (option string) :=
  exec (if bool_decide (done = [] /\ pending = []) then Raise ValueError
        else Return tt) ;;
  failed <- with_exception done ;;
  let not_connected := map (fun t => (on_cancel t.1, t.2)) pending ++ failed in
  match not_connected with
  | [] => Return None
  | _ :: _ =>
      let msg := str_len (length not_connected) +:+ " Devices did not connect:" in
      exec await_suppressed pending ;;
      msg <- describe_tasks msg not_connected ;;
      Return (Some msg)
  end.

End WaitForTasks.

(** A task that ended well, and one that [suppress(Exception)] lets
    through when awaited after its cancellation. *)
Definition returned (t : result unit * string) : bool :=
  match t.1 with Return _ => true | Raise _ => false end.

Definition done_cancelled (t : result unit * string) : bool :=
  match t.1 with Raise CancelledError => true | _ => false end.

Definition suppressed (t : coro * string) : bool :=
  match on_cancel t.1 with
  | Return _ => true
  | Raise e => is_Exception e
  end.

(** For the examples: the class names, and exceptions whose message is
    empty and has no line break. *)
Definition class_name (e : option exn) : string :=
  match e with
  | None => "NoneType"
  | Some (NotConnected _) => "NotConnected"
  | Some CancelledError => "CancelledError"
  | Some ValueError => "ValueError"
  | Some (TypeError _) => "TypeError"
  | Some (AssertionError _) => "AssertionError"
  | Some (UnboundLocalError _) => "UnboundLocalError"
  | Some TimeoutError => "TimeoutError"
  | Some (OtherException name) | Some (OtherBaseException name) => name
  end.

Definition one_line (s : string) : list string :=
  match s with EmptyString => [] | _ => [s] end.

End Collector.

(** * Properties *)

(** ** Connection orchestrator *)

Section ConnectFacts.
Import Connect.

Lemma collect_reports (finished : list string) (prepare : string * coro -> task)
    (coros : list (string * coro)) (lines : list string) :
  (forall kc, await (prepare kc) = final finished kc) ->
  Forall (fun kc => reports (final finished kc)) coros ->
  collect (map (fun kc => (kc.1, prepare kc)) coros) lines
  = Return (lines ++ report (failures finished coros)).
Proof.
  intros Hprep Hall. revert lines.
  induction Hall as [|[k c] coros Hk _ IH]; intros lines; simpl.
  - by rewrite app_nil_r.
  - rewrite Hprep. unfold failures; simpl.
    destruct (final finished (k, c)) as [[]|e] eqn:Hf.
    + apply IH.
    + destruct e; try done. rewrite IH. unfold report; simpl.
      by rewrite app_assoc.
Qed.

Lemma collect_propagates (finished : list string) (prepare : string * coro -> task)
    (before after : list (string * coro)) (kc : string * coro) (e : exn)
    (lines : list string) :
  (forall kc, await (prepare kc) = final finished kc) ->
  Forall (fun kc => reports (final finished kc)) before ->
  final finished kc = Raise e -> reports (Raise e) = false ->
  collect (map (fun kc => (kc.1, prepare kc)) (before ++ kc :: after)) lines
  = Raise e.
Proof.
  intros Hprep Hall Hkc He. revert lines.
  induction Hall as [|[k c] coros Hk _ IH]; intros lines; simpl.
  - rewrite Hprep, Hkc. destruct kc. by destruct e.
  - rewrite Hprep. destruct (final finished (k, c)) as [[]|e'] eqn:Hf; [apply IH|].
    destruct e'; first [done | apply IH].
Qed.

Lemma await_prepared finished kc : await (prepared finished kc) = final finished kc.
Proof. unfold prepared, final. by case_bool_decide. Qed.

Lemma handler_tasks finished (coros : list (string * coro)) :
  coros <> [] ->
  asyncio_wait (Some finished) (map (fun kc => (kc.1, create_task kc.2)) coros)
  = (Raise CancelledError,
     map (fun kc => (kc.1, if bool_decide (kc.1 ∈ finished)
                           then finish (create_task kc.2)
                           else create_task kc.2)) coros).
Proof.
  destruct coros as [|kc coros]; [done|]. intros _.
  unfold asyncio_wait. cbn [map]. rewrite map_map. done.
Qed.

Lemma wait_for_connection_cancelled finished (coros : list (string * coro)) :
  coros <> [] ->
  wait_for_connection (Some finished) coros
  = (lines <- collect (map (fun kc => (kc.1, prepared finished kc)) coros) [] ;;
     Raise (NotConnected lines)).
Proof.
  intros Hne. unfold wait_for_connection. rewrite handler_tasks by done.
  cbv zeta. by rewrite map_map.
Qed.

(** C1 (as amended). When [wait_for_connection] over at least one child is
    cancelled and every child's connect operation has ended by returning or
    by raising [NotConnected], it raises one [NotConnected] whose lines are
    the entries of exactly the children that raised, in insertion order;
    an entry is ["name: message"] for a one-line failure and otherwise
    ["name:"] followed by the child's lines indented by two spaces; a child
    that returned contributes nothing. *)
Theorem wait_for_connection_cancelled_report
    (finished : list string) (coros : list (string * coro)) :
  coros <> [] ->
  Forall (fun kc => reports (final finished kc)) coros ->
  wait_for_connection (Some finished) coros
    = Raise (NotConnected (report (failures finished coros)))
  /\ (failures finished coros).*1
     = (filter (fun kc => failed (final finished kc)) coros).*1
  /\ (forall k line, entry k [line] = [k +:+ ": " +:+ line])
  /\ (forall k elines, length elines <> 1%nat ->
        entry k elines = (k +:+ ":") :: map (fun line => "  " +:+ line) elines).
Proof.
  intros Hne Hall. split; [|split; [|split]].
  - rewrite wait_for_connection_cancelled by done.
    rewrite (collect_reports finished (prepared finished) coros []);
      [done | apply await_prepared | done].
  - clear Hne. unfold failures.
    induction Hall as [|[k c] coros Hk _ IH]; [done|]. cbn [omap list_omap].
    rewrite filter_cons. simpl in Hk.
    destruct (final finished (k, c)) as [[]|e] eqn:Hf.
    + rewrite decide_False by (simpl; tauto). apply IH.
    + destruct e; try done. rewrite decide_True by (simpl; tauto).
      rewrite !fmap_cons. f_equal. apply IH.
  - done.
  - intros k [|l [|l' elines]] Hlen; done.
Qed.

(** With a child that ends otherwise, the handler's loop is left by that
    child's exception and no report is raised. *)
Lemma wait_for_connection_cancelled_propagates
    (finished : list string) (before after : list (string * coro))
    (kc : string * coro) (e : exn) :
  Forall (fun kc => reports (final finished kc)) before ->
  final finished kc = Raise e -> reports (Raise e) = false ->
  wait_for_connection (Some finished) (before ++ kc :: after) = Raise e.
Proof.
  intros Hall Hkc He.
  rewrite wait_for_connection_cancelled by (by destruct before).
  rewrite (collect_propagates finished (prepared finished) before after kc e []);
    [done | apply await_prepared | done..].
Qed.

(** Left alone, the orchestrator returns once every child is done, whatever
    the children's outcomes. *)
Lemma wait_for_connection_not_cancelled (coros : list (string * coro)) :
  coros <> [] -> wait_for_connection None coros = Return tt.
Proof. by destruct coros. Qed.

Lemma wait_for_connection_cancelled_report_witness :
  wait_for_connection (Some ["a"]) three_children
  = Raise (NotConnected ["b: ca://B"; "c:"; "  x: ca://X"; "  y: ca://Y"]).
Proof.
  destruct (wait_for_connection_cancelled_report ["a"] three_children)
    as [Hreport _].
  - discriminate.
  - repeat constructor.
  - exact Hreport.
Defined.

(** C1 (as stated) fails: a single child that is cancelled and produces no
    failure has no entry in the report, yet the call raises
    [CancelledError] and not the (empty) [NotConnected] report. *)
Lemma wait_for_connection_cancelled_child_counterexample :
  failures [] [("a", plain_child)] = []
  /\ wait_for_connection (Some []) [("a", plain_child)] = Raise CancelledError
  /\ wait_for_connection (Some []) [("a", plain_child)]
     <> Raise (NotConnected (report (failures [] [("a", plain_child)]))).
Proof. split; [|split]; [reflexivity | reflexivity | discriminate]. Qed.

(** C6. With no children [asyncio.wait] is given an empty collection and
    raises [ValueError], which nothing catches: the call does not return
    normally, whatever the scheduler does. *)
Theorem wait_for_connection_no_children (sched : schedule) :
  wait_for_connection sched [] = Raise ValueError.
Proof. reflexivity. Qed.

End ConnectFacts.

(** ** AsyncStatus *)

Section StatusFacts.
Import Status.
Context {T : Type}.
Implicit Types (s : AsyncStatus T) (cb : callback) (r : result T).

Lemma call_each_calls s (cbs : list callback) :
  (call_each cbs s).1
  = MkStatus (task s) (_callbacks s)
      (calls s ++ map (fun cb => (cb, task s)) (until_raise cbs)).
Proof.
  revert s. induction cbs as [|cb cbs IH]; intros s.
  - simpl. rewrite app_nil_r. by destruct s.
  - cbn [call_each invoke until_raise map]. unfold cb_outcome.
    destruct (cb_raises cb) as [e|]; [done|].
    rewrite IH. simpl. by rewrite <- app_assoc.
Qed.

Lemma register_while_pending s (cbs : list callback) :
  done s = false ->
  run (map AddCallback cbs) s = MkStatus (task s) (_callbacks s ++ cbs) (calls s).
Proof.
  unfold run. revert s. induction cbs as [|cb cbs IH]; intros s Hs.
  - simpl. rewrite app_nil_r. by destruct s.
  - cbn [map fold_left step]. unfold add_callback. rewrite Hs. cbn [fst].
    rewrite IH by done. simpl. by rewrite <- app_assoc.
Qed.

Lemma register_when_done s (cbs : list callback) :
  done s = true ->
  run (map AddCallback cbs) s
  = MkStatus (task s) (_callbacks s) (calls s ++ map (fun cb => (cb, task s)) cbs).
Proof.
  unfold run. revert s. induction cbs as [|cb cbs IH]; intros s Hs.
  - simpl. rewrite app_nil_r. by destruct s.
  - cbn [map fold_left step]. unfold add_callback, invoke. rewrite Hs. cbn [fst].
    rewrite IH by done. simpl. by rewrite <- app_assoc.
Qed.

Lemma run_app (es1 es2 : list (event T)) s :
  run (es1 ++ es2) s = run es2 (run es1 s).
Proof. apply fold_left_app. Qed.

Lemma run_one (e : event T) s : run [e] s = step s e.
Proof. reflexivity. Qed.

Lemma run_life early r mid late :
  run (life early r mid late) (__init__ None)
  = MkStatus (Some r) early
      (map (fun cb => (cb, Some r))
           (mid ++ (if ends_cancelled r then [] else until_raise early) ++ late)).
Proof.
  unfold life. rewrite !run_app, !run_one.
  rewrite (register_while_pending (__init__ None) early) by reflexivity.
  cbn [step done task _callbacks calls __init__ app].
  rewrite (register_when_done _ mid) by reflexivity.
  cbn [step task _callbacks calls app].
  unfold _run_callbacks, cancelled. cbn [task _callbacks calls].
  destruct r as [v|e]; [|destruct e];
    cbn [negb ends_cancelled fst]; rewrite ?call_each_calls;
    (rewrite (register_when_done _ late) by reflexivity);
    cbn [task _callbacks calls]; by rewrite ?app_nil_r, ?map_app, <- ?app_assoc.
Qed.

Lemma until_raise_quiet (cbs : list callback) :
  Forall (fun cb => cb_raises cb = None) cbs -> until_raise cbs = cbs.
Proof.
  induction 1 as [|cb cbs Hcb _ IH]; [done|].
  cbn [until_raise]. by rewrite Hcb, IH.
Qed.

Lemma until_raise_stops (before after : list callback) cb (e : exn) :
  Forall (fun cb => cb_raises cb = None) before ->
  cb_raises cb = Some e ->
  until_raise (before ++ cb :: after) = before ++ [cb].
Proof.
  intros Hbefore Hcb. induction Hbefore as [|b before Hb _ IH].
  - cbn [app until_raise]. by rewrite Hcb.
  - cbn [app until_raise]. by rewrite Hb, IH.
Qed.

(** C2 (as amended). When the wrapped operation ends by succeeding or by
    raising, the callbacks registered while the status was pending are
    called in registration order, each once, up to and including the
    first that raises: all of them when none raises, and none after one
    that does. When the operation ends cancelled they are not called. A
    callback registered on a status that is done, cancelled or not, is
    called at once with that status and is not queued. *)
Theorem callbacks_called_unless_cancelled
    (early mid late : list callback) (r : result T) :
  (ends_cancelled r = false ->
     called (run (life early r [] []) (__init__ None)) = until_raise early
     /\ called (run (life early r mid late) (__init__ None))
        = mid ++ until_raise early ++ late)
  /\ (Forall (fun cb => cb_raises cb = None) early -> until_raise early = early)
  /\ (forall before cb e after,
        Forall (fun cb => cb_raises cb = None) before ->
        cb_raises cb = Some e ->
        until_raise (before ++ cb :: after) = before ++ [cb])
  /\ called (run (life early (Raise CancelledError) mid late)
                 (__init__ (T := T) None))
     = mid ++ late
  /\ (forall s cb, done s = true ->
        add_callback cb s
        = (MkStatus (task s) (_callbacks s) (calls s ++ [(cb, task s)]),
           cb_outcome cb)).
Proof.
  split; [|split; [|split; [|split]]].
  - intros Hr. unfold called. rewrite !run_life, Hr. cbn [calls].
    rewrite <- !list_fmap_compose, app_nil_r.
    split; apply list_fmap_id.
  - apply until_raise_quiet.
  - intros before cb e after. apply until_raise_stops.
  - unfold called. rewrite run_life. cbn [calls ends_cancelled app].
    rewrite <- list_fmap_compose. apply list_fmap_id.
  - intros s cb Hs. unfold add_callback. by rewrite Hs.
Qed.

(** C3. [success] raises on a status that is not done; on one that is done
    it is [True] exactly when the wrapped operation returned, and an
    [Exception] or a cancellation gives [False], not a raise. *)
Theorem success_when_done s :
  (done s = false ->
     success s = Raise (AssertionError "Status has not completed yet"))
  /\ (forall r, task s = Some r ->
        (success s = Return true <-> exists v, r = Return v)
        /\ (forall e, r = Raise e ->
              is_Exception e = true \/ e = CancelledError ->
              success s = Return false)).
Proof.
  unfold success, done, task_result. split.
  - by destruct (task s).
  - intros r ->. simpl. split.
    + destruct r as [v|e]; simpl; [split; [by exists v | done]|].
      split; [|by intros [? ?]].
      by destruct (is_Exception e || is_CancelledError e).
    + intros e -> [He| ->]; simpl; [by rewrite He | done].
Qed.

End StatusFacts.

Section StatusExamples.
Import Status.

Lemma callbacks_called_unless_cancelled_witness :
  called (run (life [quiet 1; quiet 2] (Raise (OtherException "RuntimeError"))
                    [quiet 3] [quiet 4])
              (__init__ (T := unit) None))
  = [quiet 3; quiet 1; quiet 2; quiet 4]
  /\ called (run (life [quiet 1; Callback 2 (Some ValueError); quiet 5] (Return tt)
                       [] [])
                 (__init__ None))
     = [quiet 1; Callback 2 (Some ValueError)].
Proof.
  split.
  - destruct (callbacks_called_unless_cancelled (T := unit) [quiet 1; quiet 2]
                [quiet 3] [quiet 4] (Raise (OtherException "RuntimeError")))
      as (Hcalled & Hquiet & _).
    destruct Hcalled as [_ Hall]; [reflexivity|].
    rewrite Hquiet in Hall by (repeat constructor). exact Hall.
  - destruct (callbacks_called_unless_cancelled (T := unit)
                [quiet 1; Callback 2 (Some ValueError); quiet 5] [] [] (Return tt))
      as (Hcalled & _ & Hstops & _).
    destruct Hcalled as [Hearly _]; [reflexivity|]. rewrite Hearly.
    apply (Hstops [quiet 1] (Callback 2 (Some ValueError)) ValueError [quiet 5]);
      [repeat constructor | reflexivity].
Defined.

(** C2 (as stated) fails: callback [7] is registered while the status is
    pending, the wrapped operation is cancelled, the done-callback runs,
    and [7] is never called. *)
Lemma callback_after_cancel_counterexample :
  let s := run (life [quiet 7] (Raise CancelledError) [] [])
               (__init__ (T := unit) None) in
  done s = true /\ _callbacks s = [quiet 7] /\ called s = [].
Proof. repeat split. Qed.

Lemma success_when_done_witness :
  success (__init__ (T := unit) None)
    = Raise (AssertionError "Status has not completed yet")
  /\ success (__init__ (Some (Return tt))) = Return true
  /\ success (__init__ (T := unit) (Some (Raise CancelledError))) = Return false
  /\ success (__init__ (T := unit) (Some (Raise (OtherException "RuntimeError"))))
     = Return false.
Proof.
  split; [|split; [|split]].
  - apply (success_when_done (__init__ None)). reflexivity.
  - destruct (success_when_done (__init__ (Some (Return tt)))) as [_ Hdone].
    destruct (Hdone (Return tt) eq_refl) as [Htrue _].
    apply Htrue. exists tt. reflexivity.
  - destruct (success_when_done (T := unit) (__init__ (Some (Raise CancelledError))))
      as [_ Hdone].
    destruct (Hdone _ eq_refl) as [_ Hfalse].
    apply (Hfalse CancelledError eq_refl). right. reflexivity.
  - destruct (success_when_done (T := unit)
                (__init__ (Some (Raise (OtherException "RuntimeError")))))
      as [_ Hdone].
    destruct (Hdone _ eq_refl) as [_ Hfalse].
    apply (Hfalse _ eq_refl). left. reflexivity.
Defined.

End StatusExamples.

(** ** Device names *)

Section NamingFacts.
Import Naming.

(** [StandardReadable.set_name] is the guarded one: on a named composite,
    and with an empty name, it changes nothing. *)
Lemma StandardReadable_set_name_once (n new : string) (p : bool)
    (dict : list (string * option device)) :
  truthy n = true \/ new = "" ->
  set_name new (StandardReadable n p dict) = StandardReadable n p dict.
Proof.
  intros [Hn| ->]; simpl; [|done].
  rewrite Hn. by rewrite andb_false_r.
Qed.

(** The first naming of a composite names it and hands each child device
    [name-attr], trailing underscores of the attribute dropped. *)
Example Mover_set_name :
  set_name "t1x"
    (StandardReadable "" false
       [("setpoint", Some (Signal "" false));
        ("stop_", Some (Signal "" false));
        ("_success", None)])
  = StandardReadable "t1x" false
      [("setpoint", Some (Signal "t1x-setpoint" true));
       ("stop_", Some (Signal "t1x-stop" true));
       ("_success", None)].
Proof. reflexivity. Qed.

(** C4. [Signal.set_name] assigns whatever it is given: after
    [set_name("a")], [set_name("b")] leaves the name ["b"] and
    [set_name("")] leaves it empty, where the claim (and the docstring of
    [Device.set_name]) has both calls do nothing. *)
Theorem Signal_set_name_overwrites :
  (forall old new p, name (set_name new (Signal old p)) = new)
  /\ name (set_name "b" (set_name "a" (Signal "" false))) = "b"
  /\ name (set_name "" (set_name "a" (Signal "" false))) = "".
Proof. repeat split. Qed.

End NamingFacts.

(** ** Subscription bridge *)

Section ObserveFacts.
Import Observe.
Context {V : Type}.
Implicit Types (w : world V) (e : event V) (subs : gset nat).

Lemma unsubscribe_subscribed subs (c : nat) :
  c ∉ subs -> ({[c]} ∪ subs) ∖ {[c]} = subs.
Proof.
  intros Hc. apply set_eq. intros x.
  rewrite elem_of_difference, elem_of_union, elem_of_singleton. split.
  - by intros [[->|Hx] Hn].
  - intros Hx. split; [by right|]. by intros ->.
Qed.

Lemma tracked_step subs c w e :
  c ∉ subs -> tracked subs c w -> tracked subs c (observe_value w e).
Proof.
  intros Hc. destruct w as [s c' qu g l y].
  unfold tracked, observe_value, finally, get_and_yield, subscribe_value,
    clear_sub, set_gen.
  cbn [subscribers cb q gen sig_calls yielded].
  intros [-> Hw].
  destruct e as [|v| | |x], g; try case_bool_decide; destruct qu as [|v' qu];
    cbn [subscribers cb q gen sig_calls yielded app];
    destruct Hw as [-> Hl]; try rewrite Hl;
    rewrite ?unsubscribe_subscribed by done; eauto.
Qed.

Lemma tracked_consume subs c (es : list (event V)) w :
  c ∉ subs -> tracked subs c w -> tracked subs c (consume es w).
Proof.
  intros Hc. unfold consume. revert w.
  induction es as [|e es IH]; intros w Hw; simpl; [done|].
  apply IH. by apply tracked_step.
Qed.

Lemma finally_released subs (c : nat) w :
  c ∉ subs -> gen w = AwaitingGet \/ gen w = AtYield ->
  tracked subs c w -> released c (finally w).
Proof.
  intros Hc Hg [Hcb Hw].
  assert (subscribers w = {[c]} ∪ subs /\ sig_calls w = [SubscribeValue c])
    as [Hs Hl] by (by destruct Hg as [Hg|Hg]; rewrite Hg in Hw).
  unfold released, finally, clear_sub, set_gen. cbn [gen sig_calls subscribers].
  rewrite Hcb, Hs, Hl, unsubscribe_subscribed by done. done.
Qed.

(** C7 (as amended). In a consumption of [observe_value] whose callback
    was not subscribed before, the callback is unsubscribed, by one call
    of [clear_sub], when the generator is ended: by a cancellation while
    it awaits a value, or by [GeneratorExit] ([aclose()]) or an exception
    raised at its [yield]. Once it is finished the callback is not among
    the signal's subscribers and was unsubscribed at most once. Until
    then the callback stays subscribed and was never unsubscribed; a
    consumer that is cancelled while it holds a value reaches the
    generator with nothing. *)
Theorem observe_value_unsubscribes subs (c : nat) (es : list (event V)) :
  c ∉ subs ->
  let w := consume es (fresh subs c) in
  (gen w = AwaitingGet -> released c (observe_value w Cancel))
  /\ (gen w = AtYield ->
        released c (observe_value w Close)
        /\ (forall x, released c (observe_value w (Throw x)))
        /\ observe_value w Cancel = w)
  /\ (gen w = Finished ->
        (c ∉ subscribers w)
        /\ (sig_calls w = [] \/ sig_calls w = [SubscribeValue c; ClearSub c])
        /\ unsubscribed_times w <= 1)
  /\ (gen w = AwaitingGet \/ gen w = AtYield ->
        (c ∈ subscribers w) /\ unsubscribed_times w = 0).
Proof.
  intros Hc w.
  assert (tracked subs c w) as Hw.
  { apply tracked_consume; [done|]. by split. }
  split; [|split; [|split]].
  - intros Hg. unfold observe_value. rewrite Hg.
    apply (finally_released subs); by eauto.
  - intros Hg. unfold observe_value. rewrite Hg.
    split; [|split]; [|intros x|done]; apply (finally_released subs); by eauto.
  - intros Hg. destruct Hw as [Hcb Hw]. rewrite Hg in Hw.
    destruct Hw as [Hs Hl]. split; [by rewrite Hs|]. split; [done|].
    unfold unsubscribed_times. rewrite Hcb.
    destruct Hl as [-> | ->]; [simpl; lia|].
    rewrite filter_cons_False by done. rewrite filter_cons_True by done.
    simpl. lia.
  - intros Hg. destruct Hw as [Hcb Hw].
    assert (subscribers w = {[c]} ∪ subs /\ sig_calls w = [SubscribeValue c])
      as [Hs Hl] by (by destruct Hg as [Hg|Hg]; rewrite Hg in Hw).
    split; [rewrite Hs; by apply elem_of_union_l, elem_of_singleton|].
    unfold unsubscribed_times. rewrite Hl. by rewrite filter_cons_False.
Qed.

(** C5. [_wait_for_value] reads its local [match] before anything is
    bound to it, so [wait_for_value] raises [UnboundLocalError] for every
    [match], callable or not, and never looks at a value. *)
Theorem wait_for_value_unbound_match `{EqDecision V}
    (match_ : pyobj V) (timeout : option nat) (values : list V) :
  wait_for_value match_ timeout values = Raise (UnboundLocalError "match").
Proof. reflexivity. Qed.

(** The documented behaviour: the wait completes on the first delivered
    value that matches. *)
Lemma first_match_finds `{EqDecision V} (f : V -> bool) (values : list V) (i : nat) :
  first_match (Callable f) values i
  = Return (match list_find (fun v => f v) values with
            | Some (j, _) => Matched (S (i + j))
            | None => StillWaiting
            end).
Proof.
  revert i. induction values as [|v values IH]; intros i; simpl; [done|].
  destruct (f v); simpl.
  - do 3 f_equal. lia.
  - rewrite IH. destruct (list_find _ values) as [[j x]|]; simpl; [|done].
    do 3 f_equal. lia.
Qed.

End ObserveFacts.

Section ObserveExamples.
Import Observe.

Lemma observe_value_unsubscribes_witness :
  let w := consume [Next; Notify 1%nat; Next] (fresh {[5%nat]} 9%nat) in
  yielded w = [1%nat] /\ gen w = AwaitingGet
  /\ released 9 (observe_value w Cancel).
Proof.
  assert (9%nat ∉ ({[5%nat]} : gset nat)) as Hfresh.
  { rewrite elem_of_singleton. discriminate. }
  split; [reflexivity|]. split; [reflexivity|].
  apply (observe_value_unsubscribes {[5%nat]} 9%nat [Next; Notify 1%nat; Next] Hfresh).
  reflexivity.
Defined.

(** C7 (as stated) fails: the consumer pulls, is handed the value [1], and
    stops there, by returning, by raising or by being cancelled, while it
    still holds the generator: nothing reaches the generator, [clear_sub]
    is not called and the callback is still among the signal's
    subscribers. *)
Lemma observe_value_still_subscribed_counterexample :
  let w := consume [Next; Notify 1%nat; Cancel] (fresh {[5%nat]} 9%nat) in
  yielded w = [1%nat] /\ gen w = AtYield
  /\ sig_calls w = [SubscribeValue 9] /\ 9%nat ∈ subscribers w.
Proof.
  split; [reflexivity|]. split; [reflexivity|]. split; [reflexivity|].
  change (9%nat ∈ ({[9%nat]} ∪ {[5%nat]} : gset nat)).
  by apply elem_of_union_l, elem_of_singleton.
Qed.

(** The docstring's example [wait_for_value(device.acquiring, 1, timeout=1)]
    on a signal that delivers 0, 0, 1: documented to complete on the third
    value, it raises instead. *)
Example wait_for_value_docstring_example :
  documented_wait_for_value (Plain 1%nat) (Some 1%nat) [0; 0; 1]%nat
    = Return (Matched 3)
  /\ wait_for_value (Plain 1%nat) (Some 1%nat) [0; 0; 1]%nat
    = Raise (UnboundLocalError "match").
Proof. split; reflexivity. Qed.

End ObserveExamples.

(** ** Composite readable *)

Section DictFacts.
Import Readable.
Context {V : Type}.
Implicit Types (d other : dict V) (k : string) (v : V).

Lemma get_setitem k k' v d :
  get k' (setitem k v d) = if decide (k = k') then Some v else get k' d.
Proof.
  induction d as [|[k0 v0] d IH]; simpl.
  - by destruct (decide (k = k')).
  - destruct (decide (k0 = k)) as [->|Hk0]; simpl.
    + by destruct (decide (k = k')).
    + rewrite IH. destruct (decide (k0 = k')) as [->|]; [|done].
      by rewrite decide_False.
Qed.

Lemma get_None k d : k ∉ keys d -> get k d = None.
Proof.
  induction d as [|[k0 v0] d IH]; simpl; [done|].
  rewrite not_elem_of_cons. intros [Hne Hk].
  rewrite decide_False by done. by apply IH.
Qed.

(** [update]: the other dictionary's entries win. *)
Lemma get_update d other k :
  NoDup (keys other) ->
  get k (update d other)
  = match get k other with Some v => Some v | None => get k d end.
Proof.
  unfold update. revert d.
  induction other as [|[k1 v1] other IH]; intros d Hnd; simpl; [done|].
  apply NoDup_cons in Hnd as [Hk1 Hnd]. rewrite IH by done.
  rewrite get_setitem. destruct (decide (k1 = k)) as [->|]; [|done].
  by rewrite get_None.
Qed.

Lemma keys_setitem k v d :
  keys (setitem k v d) = if decide (k ∈ keys d) then keys d else keys d ++ [k].
Proof.
  induction d as [|[k0 v0] d IH]; simpl; [done|].
  destruct (decide (k0 = k)) as [->|Hne]; simpl.
  - by rewrite decide_True by left.
  - rewrite IH. destruct (decide (k ∈ keys d)) as [Hin|Hnin].
    + by rewrite decide_True by (by right).
    + rewrite decide_False; [done|]. rewrite elem_of_cons.
      intros [Heq|Hin]; [by symmetry in Heq | done].
Qed.

Lemma NoDup_setitem k v d : NoDup (keys d) -> NoDup (keys (setitem k v d)).
Proof.
  intros Hd. rewrite keys_setitem. case_decide; [done|].
  apply NoDup_app. split; [done|]. split; [|apply NoDup_singleton].
  intros x Hx. rewrite list_elem_of_singleton. by intros ->.
Qed.

Lemma NoDup_update d other : NoDup (keys d) -> NoDup (keys (update d other)).
Proof.
  unfold update. revert d.
  induction other as [|[k1 v1] other IH]; intros d Hd; simpl; [done|].
  apply IH. by apply NoDup_setitem.
Qed.

(** The value left by [_rename] is the last one of the dictionary. *)
Lemma rename_fold (name : string) (vs : list V) (x : V) :
  fold_left (fun acc v => setitem name v acc) vs [(name, x)]
  = [(name, default x (last vs))].
Proof.
  revert x. induction vs as [|v vs IH]; intros x; simpl; [done|].
  case_decide; [|done]. rewrite IH, last_cons.
  by destruct (last vs).
Qed.

Lemma rename_last (name : string) d :
  _rename name d
  = match last (values d) with Some v => [(name, v)] | None => [] end.
Proof.
  unfold _rename. destruct (values d) as [|v vs]; [done|].
  cbn [fold_left setitem]. rewrite rename_fold, last_cons.
  by destruct (last vs).
Qed.

Lemma NoDup_rename (name : string) d : NoDup (keys (_rename name d)).
Proof.
  rewrite rename_last. destruct (last (values d)); simpl.
  - apply NoDup_singleton.
  - apply NoDup_nil_2.
Qed.

(** In the merged dictionary a key has the value of the last gathered
    dictionary that holds it. *)
Lemma get_merge_from (ds : list (dict V)) (acc : dict V) k :
  Forall (fun d => NoDup (keys d)) ds ->
  get k (fold_left update ds acc)
  = fold_left (fun found d => match get k d with Some v => Some v | None => found end)
      ds (get k acc).
Proof.
  intros Hds. revert acc.
  induction Hds as [|d ds Hd _ IH]; intros acc; simpl; [done|].
  by rewrite IH, get_update.
Qed.

Lemma lookup_to_map d k : to_map d !! k = get k d.
Proof.
  unfold to_map. induction d as [|[k0 v0] d IH]; simpl; [done|].
  destruct (decide (k0 = k)) as [->|Hne].
  - by rewrite lookup_insert_eq.
  - by rewrite lookup_insert_ne.
Qed.

Lemma to_map_update d other :
  NoDup (keys other) -> to_map (update d other) = to_map other ∪ to_map d.
Proof.
  intros Hnd. apply map_eq. intros k.
  rewrite lookup_union, !lookup_to_map, get_update by done.
  destruct (get k other), (get k d); done.
Qed.

End DictFacts.

Section ReadableFacts.
Import Readable.
Context {Reading Descriptor : Type}.
Implicit Types (A B p : signal Reading Descriptor).

Lemma init_name (prefix name : string) (primary : option (signal Reading Descriptor))
    (read read_uncached config : list (signal Reading Descriptor)) :
  _name (__init__ prefix name primary read read_uncached config) = name.
Proof. unfold __init__, set_name. by destruct name, primary. Qed.

Lemma init_read_signals (prefix name : string) p
    (read read_uncached config : list (signal Reading Descriptor)) :
  _read_signals (__init__ prefix name (Some p) read read_uncached config)
  = _ReadableRenamer p :: map AsPassed read ++ map _UncachedSignal read_uncached.
Proof. unfold __init__, set_name. by destruct name. Qed.

Lemma get_rename {V} (name : string) (d : Readable.dict V) (k : string) :
  get k (_rename name d) = if decide (name = k) then last (values d) else None.
Proof.
  rewrite rename_last. destruct (last (values d)) as [v|]; simpl.
  - by destruct (decide (name = k)).
  - by destruct (decide (name = k)).
Qed.

(** C8 (as amended). [read()] of a composite built with primary [A] and
    read child [B] merges, in this order, [A]'s reading re-keyed to the
    composite's name and [B]'s reading; on a key both hold, [B]'s value
    stands; every entry of [B]'s reading is in the result under its own
    key, and [A]'s reading (the last value of its dictionary, the only
    one for a signal) is there under the composite's name provided [B]'s
    reading does not hold that key itself. *)
Theorem read_primary_and_child (prefix name : string) A B :
  let self := __init__ prefix name (Some A) [B] [] [] in
  let dA := sig_read A None in
  let dB := sig_read B None in
  NoDup (keys dB) ->
  read self = merge_gathered_dicts [_rename name dA; dB]
  /\ (forall k, get k (read self)
                = match get k dB with
                  | Some v => Some v
                  | None => get k (_rename name dA)
                  end)
  /\ (forall k v, get k dB = Some v -> get k (read self) = Some v)
  /\ (get name dB = None -> get name (read self) = last (values dA))
  /\ (forall ka ra, dA = [(ka, ra)] -> get name dB = None ->
        get name (read self) = Some ra)
  /\ to_map (read self) = to_map dB ∪ to_map (_rename name dA).
Proof.
  intros self dA dB HB.
  assert (read self = merge_gathered_dicts [_rename name dA; dB]) as Hread.
  { unfold read. subst self. rewrite init_read_signals. simpl.
    by rewrite init_name. }
  assert (forall k, get k (read self)
                    = match get k dB with
                      | Some v => Some v
                      | None => get k (_rename name dA)
                      end) as Hget.
  { intros k. rewrite Hread. unfold merge_gathered_dicts.
    rewrite get_merge_from by (repeat constructor; [apply NoDup_rename | done]).
    cbn [fold_left get]. destruct (get k dB); [done|].
    by destruct (get k (_rename name dA)). }
  split; [done|]. split; [done|]. split; [|split; [|split]].
  - intros k v Hk. by rewrite Hget, Hk.
  - intros Hk. rewrite Hget, Hk, get_rename. by rewrite decide_True.
  - intros ka ra HA Hk. rewrite Hget, Hk, HA. simpl. by rewrite decide_True.
  - apply map_eq. intros k.
    rewrite lookup_union, !lookup_to_map, Hget.
    by destruct (get k dB), (get k (_rename name dA)).
Qed.

(** C9. The primary of a composite is the first of its read signals,
    wrapped by [_ReadableRenamer]; what it contributes to [read()] and to
    [describe()] has at most one entry, keyed by the composite's name and
    holding the last value of the primary's own dictionary, so of [n > 0]
    values [n - 1] are dropped. *)
Theorem primary_contributes_one_entry (prefix name : string) p
    (read read_uncached config : list (signal Reading Descriptor)) :
  let self := __init__ prefix name (Some p) read read_uncached config in
  let r := read_of self (_ReadableRenamer p) in
  let ds := describe_of self (_ReadableRenamer p) in
  head (_read_signals self) = Some (_ReadableRenamer p)
  /\ length r <= 1 /\ length ds <= 1
  /\ r = match last (values (sig_read p None)) with
         | Some v => [(name, v)]
         | None => []
         end
  /\ ds = match last (values (sig_describe p)) with
          | Some v => [(name, v)]
          | None => []
          end
  /\ length (sig_read p None) - length r = length (sig_read p None) - 1
  /\ length (sig_describe p) - length ds = length (sig_describe p) - 1.
Proof.
  intros self r ds. subst r ds. cbn [read_of describe_of]. subst self.
  rewrite init_read_signals, init_name, !rename_last. unfold values.
  split; [done|].
  destruct (sig_read p None) as [|x xs] eqn:Hr;
    destruct (sig_describe p) as [|y ys] eqn:Hd;
    rewrite ?fmap_cons, ?last_cons;
    repeat match goal with |- context [last ?l] => destruct (last l) end;
    simpl; repeat split; lia.
Qed.

End ReadableFacts.

Section ReadableExamples.
Import Readable.

Lemma read_primary_and_child_witness :
  read (__init__ "X:" "mover" (Some readback) [velocity] [] [])
  = [("mover", 15%nat); ("mover-velocity", 2%nat)]
  /\ get "mover" (read (__init__ "X:" "mover" (Some readback) [velocity] [] []))
     = Some 15%nat.
Proof.
  destruct (read_primary_and_child "X:" "mover" readback velocity)
    as (Hread & _ & _ & Hname & _).
  - repeat constructor; rewrite ?list_elem_of_singleton; by inversion 1.
  - split; [exact Hread | exact (Hname eq_refl)].
Defined.

(** C8 (as stated) fails: a composite that was given no name, with a
    primary and a read child that have none either, reads the child's
    entry alone: the child's reading takes the key [""] that the renamed
    primary had, and the primary's reading is not in the result. *)
Lemma read_collision_counterexample :
  let A : signal nat string := Sig (fun _ => [("", 15%nat)]) [("", "number")] in
  let B : signal nat string := Sig (fun _ => [("", 2%nat)]) [("", "number")] in
  let self := __init__ "X:" "" (Some A) [B] [] [] in
  read self = [("", 2%nat)]
  /\ get (_name self) (read self) <> Some 15%nat
  /\ 15%nat ∉ values (read self).
Proof.
  split; [reflexivity|]. split; [discriminate|].
  change (15%nat ∉ [2%nat]). rewrite list_elem_of_singleton. discriminate.
Qed.

End ReadableExamples.

(** ** Comparing and hashing signals *)

Section CompareFacts.
Import Compare.
Open Scope Z_scope.

Lemma hash_int_small (n : Z) : address n -> hash_int n = n.
Proof.
  unfold address. intros Hn. unfold hash_int.
  rewrite Z.abs_eq, Z.mod_small by lia.
  destruct (Z.eq_dec n 0) as [->|Hne]; [done|].
  rewrite Z.sgn_pos by lia.
  destruct (Z.eqb_spec (1 * n) (-1)); lia.
Qed.

Lemma hash_Signal (i : Z) : address i -> hash (Signal i) = i.
Proof. apply hash_int_small. Qed.

(** A lookup among stored signals meets no [==]: it finds the signal
    itself or passes every entry on its hash. *)
Lemma contains_Signal (ids : list Z) (i : Z) :
  address i -> Forall address ids ->
  contains (Signal i) (hash (Signal i)) (map stored ids)
  = Return (bool_decide (i ∈ ids)).
Proof.
  intros Hi Hids. rewrite (hash_Signal i) by done.
  induction Hids as [|j ids Hj _ IH]; [done|].
  cbn [map contains stored]. rewrite (hash_Signal j) by done.
  change (id (Signal j)) with j. change (id (Signal i)) with i.
  destruct (Z.eqb_spec j i) as [->|Hne].
  - by rewrite bool_decide_eq_true_2 by left.
  - rewrite IH. f_equal. apply bool_decide_ext. rewrite elem_of_cons.
    split; [by right | by intros [?|?]].
Qed.

Lemma add_all_Signals (before ids : list Z) :
  NoDup (before ++ ids) -> Forall address (before ++ ids) ->
  add_all (map stored before) (map Signal ids)
  = Return (map stored (before ++ ids)).
Proof.
  revert before. induction ids as [|i ids IH]; intros before Hnd Hall.
  - by rewrite app_nil_r.
  - cbn [map add_all]. unfold add.
    apply Forall_app in Hall as Hsplit. destruct Hsplit as [Hb Hi].
    apply Forall_cons in Hi as [Hi _].
    rewrite contains_Signal by done.
    rewrite bool_decide_eq_false_2.
    + cbn [Py.bind]. replace (map stored before ++ [(hash (Signal i), Signal i)])
        with (map stored (before ++ [i])) by (by rewrite map_app).
      rewrite IH; rewrite <- ?app_assoc; done.
    + apply NoDup_app in Hnd as (_ & Hdisj & _). intros Hin.
      apply (Hdisj i Hin). by left.
Qed.

(** Comparing a signal with itself through [==] raises as well; a set
    gets past that only because it looks at identity first. *)
Lemma Signal_eq_itself (i : Z) :
  py_eq (Signal i) (Signal i)
  = Raise (TypeError
      "Can't compare two Signals, did you mean await signal.get_value() instead?").
Proof. reflexivity. Qed.

(** C10. [hash(signal)] is [hash(id(signal))]; each of the six comparison
    methods of a signal raises [TypeError] when the other operand is a
    signal and returns [NotImplemented] when it is not; and signals with
    distinct identities (addresses, below the hash modulus) go into a set
    without error, each stored once and found again by identity. *)
Theorem Signal_hash_and_compare :
  (forall self, isinstance_Signal self = true -> hash self = hash_int (id self))
  /\ (forall op self other, isinstance_Signal other = true ->
        Signal_method op self other
        = Raise (TypeError
            "Can't compare two Signals, did you mean await signal.get_value() instead?"))
  /\ (forall op self other, isinstance_Signal other = false ->
        Signal_method op self other = Return NotImplemented)
  /\ (forall ids, NoDup ids -> Forall address ids ->
        add_all [] (map Signal ids) = Return (map stored ids)
        /\ forall i, address i ->
             contains (Signal i) (hash (Signal i)) (map stored ids)
             = Return (bool_decide (i ∈ ids))).
Proof.
  split; [|split; [|split]].
  - intros [i []] Hs; done.
  - intros op self other Ho.
    destruct op; cbn [Signal_method];
      unfold __lt__, __le__, __eq__, __ge__, __gt__, __ne__, _fail; by rewrite Ho.
  - intros op self other Ho.
    destruct op; cbn [Signal_method];
      unfold __lt__, __le__, __eq__, __ge__, __gt__, __ne__, _fail; by rewrite Ho.
  - intros ids Hnd Hall. split.
    + by apply (add_all_Signals [] ids).
    + intros i Hi. by apply contains_Signal.
Qed.

Lemma Signal_hash_and_compare_witness :
  hash (Signal 140234) = hash_int 140234
  /\ Signal_method Compare.Eq (Signal 140234) (Signal 140298)
     = Raise (TypeError
         "Can't compare two Signals, did you mean await signal.get_value() instead?")
  /\ Signal_method Compare.Lt (Signal 140234) (Obj 7 (IntClass 3))
     = Return NotImplemented
  /\ add_all [] [Signal 140234; Signal 140298]
     = Return [(140234, Signal 140234); (140298, Signal 140298)].
Proof.
  destruct Signal_hash_and_compare as (Hhash & Hraise & Hnot & Hset).
  split; [by apply Hhash|]. split; [by apply Hraise|]. split; [by apply Hnot|].
  apply (Hset [140234; 140298]).
  - apply (bool_decide_unpack (NoDup [140234; 140298])). vm_compute. exact I.
  - repeat constructor; unfold address, hash_modulus; lia.
Defined.

End CompareFacts.

(** * Further properties *)

(** ** Connecting a device tree *)

Section TreeFacts.
Import Connect Tree.

Section dev_induction.
Variable P : dev -> Prop.
Hypothesis P_Sig : forall connect_, P (Sig connect_).
Hypothesis P_Std : forall _init_prefix dict,
  Forall (fun ka => forall c, ka.2 = Some c -> P c) dict ->
  P (Std _init_prefix dict).

Lemma dev_induction (d : dev) : P d.
Proof using P_Sig P_Std.
  revert d. fix IH 1. intros [connect_|_init_prefix dict]; [apply P_Sig|].
  apply P_Std. induction dict as [|[k [c|]] rest IHrest].
  - constructor.
  - constructor; [|exact IHrest]. simpl. intros c' [= <-]. apply IH.
  - constructor; [|exact IHrest]. simpl. intros c' Hc. discriminate Hc.
Qed.
End dev_induction.

(** What a cancelled [wait_for_connection] raises when every child
    reports. *)
Lemma cancelled_all_report (finished : list string) (coros : list (string * coro)) :
  coros <> [] ->
  Forall (fun kc => reports (final finished kc)) coros ->
  wait_for_connection (Some finished) coros
  = Raise (NotConnected (report (failures finished coros))).
Proof.
  intros Hne Hall. rewrite wait_for_connection_cancelled by done.
  rewrite (collect_reports finished (prepared finished) coros []);
    [done | apply await_prepared | done].
Qed.

Lemma final_finished_at fin path (names : list string) (k : string) (c : coro) :
  k ∈ names ->
  final (finished_at fin path names) (k, c)
  = if fin (path ++ [k]) then run_to_end c else on_cancel c.
Proof.
  intros Hk. unfold final, finished_at. cbn [fst snd].
  destruct (fin (path ++ [k])) eqn:Hfin.
  - rewrite bool_decide_eq_true_2; [done|].
    apply list_elem_of_filter. split; [by rewrite Hfin | done].
  - rewrite bool_decide_eq_false_2; [done|].
    rewrite list_elem_of_filter. intros [Hf _]. by rewrite Hfin in Hf.
Qed.

Lemma children_coros_app connect_of (l1 l2 : list (string * option dev)) :
  children_coros connect_of (l1 ++ l2)
  = children_coros connect_of l1 ++ children_coros connect_of l2.
Proof. apply omap_app. Qed.

Lemma children_coros_nil connect_of (dict : list (string * option dev)) :
  children_coros connect_of dict = [] <-> has_child dict = false.
Proof.
  unfold children_coros, has_child.
  induction dict as [|[k [c|]] dict IH]; cbn [omap list_omap existsb fst snd];
    [done|..]; case_decide; cbn [mbind option_bind negb andb orb];
    rewrite ?bool_decide_eq_true_2 by done;
    rewrite ?bool_decide_eq_false_2 by (by intros [? ?] || done);
    cbn [negb andb orb]; done.
Qed.

Lemma connect_children_left_alone fin path dict prefix sim :
  connect_children fin path dict prefix sim None
  = if has_child dict then Return tt else Raise ValueError.
Proof.
  unfold connect_children. destruct (has_child dict) eqn:Hc.
  - apply wait_for_connection_not_cancelled. intros Hnil.
    apply children_coros_nil in Hnil. congruence.
  - by rewrite (proj2 (children_coros_nil _ dict) Hc).
Qed.

Lemma run_to_end_connect fin path _init_prefix dict prefix sim :
  run_to_end (connect fin path (Std _init_prefix dict) prefix sim)
  = if has_child dict then Return tt else Raise ValueError.
Proof. apply (connect_children_left_alone fin path dict). Qed.

(** Left alone, [connect_children], and with it the [connect] of a
    [StandardReadable], returns normally whenever there is a child to
    connect, whatever becomes of the children: no failure below shows.
    Without a child ([parent] and attributes that are no devices do not
    count) it raises [ValueError], cancelled or not. *)
Theorem connect_left_alone fin path _init_prefix dict prefix sim :
  connect_children fin path dict prefix sim None
    = (if has_child dict then Return tt else Raise ValueError)
  /\ run_to_end (connect fin path (Std _init_prefix dict) prefix sim)
    = (if has_child dict then Return tt else Raise ValueError)
  /\ (has_child dict = false ->
      forall sched, connect_children fin path dict prefix sim sched
                    = Raise ValueError).
Proof.
  split; [apply connect_children_left_alone|]. split; [apply run_to_end_connect|].
  intros Hc sched. unfold connect_children.
  by rewrite (proj2 (children_coros_nil _ dict) Hc).
Qed.

Lemma Forall_children_coros (Q : string * coro -> Prop) connect_of
    (dict : list (string * option dev)) :
  Forall (fun ka => ka.1 <> "parent" -> forall c, ka.2 = Some c ->
            Q (ka.1, connect_of ka.1 c)) dict ->
  Forall Q (children_coros connect_of dict).
Proof.
  unfold children_coros. induction 1 as [|[k a] dict Hka _ IH];
    cbn [omap list_omap fst snd]; [constructor|].
  case_decide; [done|]. destruct a as [c|]; cbn [mbind option_bind]; [|done].
  constructor; [|done]. by apply Hka.
Qed.

(** The contract of [Device.connect] carries over from the Signals to
    every composite above them: in a well-behaved tree each [connect],
    cancelled or not, returns or raises [NotConnected], and never lets
    [CancelledError] or [ValueError] through. *)
Theorem well_behaved_connect (d : dev) :
  well_behaved d ->
  forall fin path prefix sim,
    reports (run_to_end (connect fin path d prefix sim))
    /\ reports (on_cancel (connect fin path d prefix sim)).
Proof.
  induction d as [connect_|_init_prefix dict IH] using dev_induction;
    intros Hwb fin path prefix sim.
  - inversion Hwb as [? Hsig|]; subst. apply Hsig.
  - inversion Hwb as [|? ? Hhas Hall]; subst. split.
    + by rewrite run_to_end_connect, Hhas.
    + cbn [connect on_cancel]. rewrite cancelled_all_report; [done| |].
      * intros Hnil. apply children_coros_nil in Hnil. congruence.
      * apply Forall_children_coros.
        rewrite Forall_forall in IH, Hall. apply Forall_forall.
        intros [k a] Hin Hk c Hc. cbn [fst snd] in *.
        destruct (IH _ Hin c Hc (Hall _ Hin Hk c Hc) fin (path ++ [k])
                    (prefix +:+ _init_prefix) sim) as [Hrun Hcancel].
        unfold final. cbn [fst snd]. by case_bool_decide.
Qed.

Lemma well_behaved_connect_witness :
  reports (on_cancel (connect (fun _ => false) [] stage "" false)).
Proof.
  apply (well_behaved_connect stage).
  repeat (constructor || intros ? || simplify_eq /= || done).
Defined.

Lemma failures_app finished (l1 l2 : list (string * coro)) :
  failures finished (l1 ++ l2) = failures finished l1 ++ failures finished l2.
Proof. apply omap_app. Qed.

Lemma failures_connected finished (coros : list (string * coro)) :
  Forall (fun kc => final finished kc = Return tt) coros ->
  failures finished coros = [].
Proof.
  unfold failures. induction 1 as [|kc coros Hkc _ IH]; [done|].
  cbn [omap list_omap]. by rewrite Hkc.
Qed.

Lemma children_coros_split connect_of before (k : string) child after :
  k <> "parent" ->
  children_coros connect_of (before ++ (k, Some child) :: after)
  = children_coros connect_of before
    ++ (k, connect_of k child) :: children_coros connect_of after.
Proof.
  intros Hk. rewrite children_coros_app. f_equal.
  unfold children_coros. cbn [omap list_omap fst snd].
  by rewrite decide_False by done.
Qed.

(** When a single Signal fails, with a one-line message, every composite
    above it passes the failure on as one line, so that the report names
    the attributes from the top down to the Signal on that line. *)
Theorem sole_failure_path_line fin sim path d prefix ks m :
  sole_failure fin sim path d prefix ks m ->
  on_cancel (connect fin path d prefix sim)
  = Raise (NotConnected [path_line ks m]).
Proof.
  induction 1 as [path connect_ prefix m Hm
                 |path ip before k child after prefix ks m Hk Hfin Hothers _ IH].
  - exact Hm.
  - cbn [connect on_cancel].
    set (connect_of := fun k c => connect fin (path ++ [k]) c (prefix +:+ ip) sim).
    rewrite children_coros_split by done.
    set (cb := children_coros connect_of before).
    set (ca := children_coros connect_of after).
    set (coros := cb ++ (k, connect_of k child) :: ca).
    set (finished := finished_at fin path coros.*1).
    assert (forall kc, kc ∈ coros ->
              final finished kc
              = if fin (path ++ [kc.1]) then run_to_end kc.2 else on_cancel kc.2)
      as Hfinal.
    { intros [k' c'] Hin. apply final_finished_at.
      apply list_elem_of_fmap. by exists (k', c'). }
    apply Forall_app in Hothers as [Hbefore Hafter].
    assert (Forall (fun kc => final finished kc = Return tt) cb) as Hcb.
    { apply Forall_forall. intros kc Hkc.
      rewrite Hfinal by (apply elem_of_app; by left). revert kc Hkc.
      apply Forall_forall. by apply Forall_children_coros. }
    assert (Forall (fun kc => final finished kc = Return tt) ca) as Hca.
    { apply Forall_forall. intros kc Hkc.
      rewrite Hfinal by (apply elem_of_app; right; by right). revert kc Hkc.
      apply Forall_forall. by apply Forall_children_coros. }
    assert (final finished (k, connect_of k child)
            = Raise (NotConnected [path_line ks m])) as Hchild.
    { rewrite Hfinal by (apply elem_of_app; right; left). cbn [fst snd].
      rewrite Hfin. apply IH. }
    rewrite cancelled_all_report.
    + unfold coros. rewrite failures_app, (failures_connected _ cb) by done.
      unfold failures at 1. cbn [omap list_omap]. rewrite Hchild.
      change (omap _ ca) with (failures finished ca).
      by rewrite failures_connected.
    + unfold coros. by destruct cb.
    + unfold coros. apply Forall_app. split; [|constructor].
      * eapply Forall_impl; [exact Hcb|]. by intros kc ->.
      * by rewrite Hchild.
      * eapply Forall_impl; [exact Hca|]. by intros kc ->.
Qed.

Lemma sole_failure_path_line_witness :
  on_cancel (connect (fun path => bool_decide (path ∉ [["y"]; ["y"; "readback"]]))
               [] stage "" false)
  = Raise (NotConnected ["y: readback: ca://BL:Y:Readback"]).
Proof.
  apply (sole_failure_path_line _ false [] stage "" ["y"; "readback"]
           "ca://BL:Y:Readback").
  apply (sole_Std _ _ [] "BL:" [("x", Some (mover "X:"))] "y"
           (mover "Y:") [] "" ["readback"]); [discriminate | reflexivity | |].
  - repeat constructor. intros _ c [= <-]. reflexivity.
  - apply (sole_Std _ _ ["y"] "Y:" [("setpoint", Some (pv "Setpoint"))] "readback"
             (pv "Readback") [("_success", None)] "BL:" []);
      [discriminate | reflexivity | |].
    + repeat constructor; [intros _ c [= <-]; reflexivity | intros _ c Hc; discriminate Hc].
    + apply sole_Sig. reflexivity.
Defined.

End TreeFacts.

(** ** Names along a path of attributes *)

Section PathsFacts.
Import Naming Paths.

(** Once a [StandardReadable] has a name, no [set_name] changes it or
    anything below it again. *)
Theorem set_name_settles (n1 n2 old : string) (p : bool)
    (dict : list (string * option device)) :
  truthy n1 = true ->
  set_name n2 (set_name n1 (StandardReadable old p dict))
  = set_name n1 (StandardReadable old p dict).
Proof.
  intros Hn1. destruct (truthy old) eqn:Hold.
  - rewrite !StandardReadable_set_name_once by by left. done.
  - cbn [set_name]. rewrite Hn1, Hold. cbn [andb negb].
    apply StandardReadable_set_name_once. by left.
Qed.

Lemma set_name_settles_witness :
  set_name "other" (set_name "stage" unnamed_stage) = set_name "stage" unnamed_stage.
Proof. apply set_name_settles. reflexivity. Defined.

Lemma attribute_renamed (g : string -> device -> device) (k : string)
    (dict : list (string * option device)) :
  attribute k
    (map (fun kv => match kv with
                    | (attr_name, Some attr) => (attr_name, Some (g attr_name attr))
                    | (attr_name, None) => (attr_name, None)
                    end) dict)
  = g k <$> attribute k dict.
Proof.
  induction dict as [|[k' [c|]] dict IH]; cbn [map attribute]; [done|..];
    case_decide; subst; done.
Qed.


Lemma child_set_name (k name n : string) (p : bool)
    (dict : list (string * option device)) :
  truthy name = true -> truthy n = false ->
  descend [k] (set_name name (StandardReadable n p dict))
  = (fun target => set_parent (set_name (name +:+ "-" +:+ rstrip_ k) target))
      <$> attribute k dict.
Proof.
  intros Hname Hn. cbn [set_name]. rewrite Hname, Hn. cbn [andb negb descend].
  rewrite attribute_renamed. by destruct (attribute k dict).
Qed.


End PathsFacts.

Section PathsExamples.
Import Naming Paths.


End PathsExamples.

(** ** The order of observed values *)

Section OrderFacts.
Import Observe Order.
Context {V : Type}.
Implicit Types (w : world V) (e : event V) (es : list (event V)).

Lemma running_step w e :
  goes_on e = true -> running w ->
  running (observe_value w e)
  /\ yielded (observe_value w e) ++ q (observe_value w e)
     = yielded w ++ q w ++ notified [e]
  /\ length (yielded (observe_value w e)) + awaiting (observe_value w e)
     <= length (yielded w) + awaiting w + pulls [e].
Proof.
  destruct w as [s c qu g l y].
  assert (pulls [Next (V := V)] = 1) as Hpull by reflexivity.
  assert (forall v : V, pulls [Notify v] = 0) as Hnotify by reflexivity.
  unfold running, observe_value, get_and_yield, set_gen, awaiting.
  cbn [subscribers cb q gen sig_calls yielded].
  intros He [Hc Hg]. destruct e as [|v| | |x]; try done.
  - rewrite Hpull. destruct Hg as [[-> ->]| ->].
    + cbn. rewrite !app_nil_r. split; [by eauto|]. split; [done|lia].
    + destruct qu as [|v qu]; cbn; rewrite ?app_nil_r, ?length_app; cbn.
      * split; [by eauto|]. split; [done|lia].
      * split; [by eauto|]. split; [by rewrite <- app_assoc|lia].
  - rewrite Hnotify, bool_decide_eq_true_2 by done.
    destruct Hg as [[-> ->]| ->]; cbn; rewrite ?app_nil_r, ?length_app; cbn.
    + split; [by eauto|]. split; [done|lia].
    + split; [by eauto|]. split; [done|lia].
Qed.

Lemma running_consume es w :
  Forall (fun e => goes_on e) es -> running w ->
  let w' := consume es w in
  running w'
  /\ yielded w' ++ q w' = yielded w ++ q w ++ notified es
  /\ length (yielded w') + awaiting w' <= length (yielded w) + awaiting w + pulls es.
Proof.
  intros Hes. revert w. unfold consume.
  induction Hes as [|e es He _ IH]; intros w Hw; cbn [fold_left].
  - rewrite !app_nil_r. split; [done|]. split; [done|]. unfold pulls. simpl. lia.
  - apply Is_true_true in He. destruct (running_step w e He Hw) as (Hw' & Hq & Hn).
    destruct (IH _ Hw') as (Hr & Hq' & Hn'). split; [done|]. split.
    + rewrite Hq', (app_assoc (yielded _)), Hq.
      assert (notified (e :: es) = notified [e] ++ notified es) as ->
        by (by destruct e).
      by rewrite <- !app_assoc.
    + assert (pulls (e :: es) = pulls [e] + pulls es) as ->; [|lia].
      unfold pulls. change (e :: es) with ([e] ++ es).
      by rewrite filter_app, length_app.
Qed.

(** From the first pull on, and as long as nothing ends the consumption,
    the values yielded followed by the values still queued are the values
    the signal notified, in that order: none is lost, repeated or
    reordered; and no more values are yielded than were pulled. *)
Theorem observe_value_in_order (subs : gset nat) (c : nat) es :
  Forall (fun e => goes_on e) es ->
  let w := consume (Next :: es) (fresh subs c) in
  yielded w ++ q w = notified es
  /\ length (yielded w) <= pulls (Next :: es)
  /\ (gen w = AwaitingGet -> q w = [] /\ yielded w = notified es).
Proof.
  intros Hes w.
  set (w1 := observe_value (fresh (V := V) subs c) Next).
  assert (running w1) as Hstart.
  { split; [|by left]. cbn. apply elem_of_union_l. by apply elem_of_singleton. }
  assert (yielded w1 = [] /\ q w1 = [] /\ awaiting w1 = 1) as (Hy1 & Hq1 & Ha1)
    by done.
  assert (w = consume es w1) as Hw by done.
  destruct (running_consume es w1 Hes Hstart) as ((_ & Hg) & Hq & Hn).
  rewrite <- Hw, Hy1, Hq1 in Hq. rewrite <- Hw, Hy1, Ha1 in Hn.
  rewrite <- Hw in Hg. cbn [app length] in Hq, Hn.
  assert (pulls (Next :: es) = 1 + pulls es) as Hp.
  { unfold pulls. change (Next :: es) with ([Next] ++ es).
    by rewrite filter_app, length_app. }
  split; [done|]. split; [lia|].
  intros Hgen. destruct Hg as [[_ Hempty]|Hy]; [|congruence].
  split; [done|]. by rewrite Hempty, app_nil_r in Hq.
Qed.

(** Before the first pull nothing is subscribed: what the signal notifies
    then never reaches the consumer. *)
Theorem observe_value_misses_earlier_values (subs : gset nat) (c : nat)
    (vs : list V) es :
  c ∉ subs ->
  consume (map Notify vs ++ es) (fresh subs c) = consume es (fresh subs c).
Proof.
  intros Hc. unfold consume. rewrite fold_left_app. f_equal.
  induction vs as [|v vs IH]; [done|]. cbn [map fold_left].
  replace (observe_value (fresh subs c) (Notify v)) with (fresh (V := V) subs c);
    [done|].
  unfold observe_value, fresh. cbn [subscribers cb gen].
  by rewrite bool_decide_eq_false_2.
Qed.

(** Once the generator is finished nothing moves any more: it does not
    subscribe again, queues and yields nothing, and calls the signal no
    more. *)
Theorem observe_value_finished_for_good (subs : gset nat) (c : nat) es es' :
  c ∉ subs ->
  gen (consume es (fresh subs c)) = Finished ->
  consume (es ++ es') (fresh subs c) = consume es (fresh subs c).
Proof.
  intros Hc Hfin. unfold consume at 1. rewrite fold_left_app.
  fold (consume es (fresh subs c)).
  assert (tracked subs c (consume es (fresh subs c))) as Hw.
  { apply tracked_consume; [done|]. by split. }
  revert Hfin Hw. generalize (consume es (fresh subs c)). intros w Hfin Hw.
  induction es' as [|e es' IH]; [done|]. cbn [fold_left].
  replace (observe_value w e) with w; [done|].
  destruct Hw as [Hcb Hw]. rewrite Hfin in Hw. destruct Hw as [Hs _].
  unfold observe_value. rewrite Hfin. destruct e; try done.
  rewrite bool_decide_eq_false_2; [done|]. by rewrite Hcb, Hs.
Qed.

End OrderFacts.

(** ** Configuration readings and the keys of a merge *)

Section MergeFacts.
Import Readable Config.

Lemma merge_snoc {V} (ds : list (dict V)) (d : dict V) :
  merge_gathered_dicts (ds ++ [d]) = update (merge_gathered_dicts ds) d.
Proof. unfold merge_gathered_dicts. by rewrite fold_left_app. Qed.

(** In the merge of gathered dictionaries a key has the value of the last
    dictionary that holds it, and is missing when none does. *)
Theorem merge_last_wins {V} (ds : list (dict V)) (k : string) :
  Forall (fun d => NoDup (keys d)) ds ->
  get k (merge_gathered_dicts ds) = last (omap (get k) ds).
Proof.
  induction ds as [|d ds IH] using rev_ind; intros Hds; [done|].
  apply Forall_app in Hds as [Hds Hd]. apply Forall_cons in Hd as [Hd _].
  rewrite merge_snoc, get_update, omap_app by done. cbn [omap list_omap].
  destruct (get k d) as [v|]; [by rewrite last_snoc|].
  rewrite app_nil_r. by apply IH.
Qed.

Lemma keys_update_from {V} (d other : dict V) :
  keys (update d other)
  = foldl (fun seen k => if decide (k ∈ seen) then seen else seen ++ [k])
      (keys d) (keys other).
Proof.
  unfold update. revert d.
  induction other as [|[k v] other IH]; intros d; [done|].
  change (keys ((k, v) :: other)) with (k :: keys other).
  cbn [fold_left foldl fst snd]. rewrite IH, keys_setitem. done.
Qed.

Lemma keys_merge_from {V} (ds : list (dict V)) (acc : dict V) :
  keys (fold_left update ds acc)
  = foldl (fun seen k => if decide (k ∈ seen) then seen else seen ++ [k])
      (keys acc) (concat (map keys ds)).
Proof.
  revert acc. induction ds as [|d ds IH]; intros acc; [done|].
  cbn [fold_left map concat]. rewrite IH, foldl_app. f_equal.
  apply keys_update_from.
Qed.

Lemma NoDup_merge_from {V} (ds : list (dict V)) (acc : dict V) :
  NoDup (keys acc) -> NoDup (keys (fold_left update ds acc)).
Proof.
  revert acc. induction ds as [|d ds IH]; intros acc Hacc; [done|].
  cbn [fold_left]. apply IH. by apply NoDup_update.
Qed.

(** The merged dictionary has each key once, in the order in which the
    keys are first met going through the gathered dictionaries. *)
Theorem merge_keys_first_seen {V} (ds : list (dict V)) :
  keys (merge_gathered_dicts ds) = first_seen (concat (map keys ds))
  /\ NoDup (keys (merge_gathered_dicts ds)).
Proof.
  split.
  - apply (keys_merge_from ds []).
  - apply NoDup_merge_from. constructor.
Qed.

End MergeFacts.

Section ConfigFacts.
Import Readable Config.
Context {Reading Descriptor : Type}.
Implicit Types (self : StandardReadable Reading Descriptor)
  (r : AsyncReadable Reading Descriptor).

Lemma keys_rename {V} (name : string) (d : dict V) :
  keys (_rename name d) = match keys d with [] => [] | _ :: _ => [name] end.
Proof.
  rewrite rename_last. unfold values, keys.
  destruct d as [|kv d]; [done|]. cbn [map]. rewrite last_cons.
  by destruct (last (map snd d)).
Qed.

Lemma consistent_keys self r :
  consistent r -> keys (read_of self r) = keys (describe_of self r).
Proof.
  unfold consistent.
  destruct r as [s|s|s]; cbn [read_of describe_of signal_of cached_of];
    [done|done|].
  intros Hk. by rewrite !keys_rename, Hk.
Qed.

Lemma consistent_merge self (rs : list (AsyncReadable Reading Descriptor)) :
  Forall consistent rs ->
  keys (merge_gathered_dicts (map (read_of self) rs))
  = keys (merge_gathered_dicts (map (describe_of self) rs)).
Proof.
  intros Hrs.
  unfold merge_gathered_dicts. rewrite !keys_merge_from.
  f_equal. f_equal. rewrite !map_map. apply Forall_fmap_ext_1.
  eapply Forall_impl; [exact Hrs|]. intros r Hr. by apply consistent_keys.
Qed.

(** When each signal of a composite describes the keys it reads,
    [describe()] of the composite has the keys of [read()], in the same
    order, and [describe_configuration()] those of
    [read_configuration()]; renaming the primary and reading uncached
    keep it so. *)
Theorem describe_has_keys_of_read self :
  Forall consistent (_read_signals self) ->
  Forall consistent (_conf_signals self) ->
  keys (describe self) = keys (read self)
  /\ keys (describe_configuration self) = keys (read_configuration self).
Proof.
  intros Hread Hconf. split; symmetry; by apply consistent_merge.
Qed.

End ConfigFacts.

(** ** AsyncStatus, once more *)

Section StatusMoreFacts.
Import Status.
Context {T : Type}.

(** On a status that is done [success] raises exactly when the wrapped
    operation ended with an exception that is neither an [Exception] nor
    a cancellation, and then it raises that exception. *)
Theorem success_raises_what_it_does_not_catch (s : AsyncStatus T) (e : exn) :
  done s = true ->
  success s = Raise e
  <-> task s = Some (Raise e) /\ is_Exception e = false /\ e <> CancelledError.
Proof.
  unfold success, done, task_result. destruct (task s) as [[v|e']|]; [| |done].
  - intros _. cbn. split; [done|]. by intros [? _].
  - intros _. cbn.
    destruct (is_Exception e') eqn:Hexc; cbn.
    + split; [done|]. intros ([= ->] & He & _). congruence.
    + destruct e'; try done; cbn;
        (split; [intros [= <-]; done | intros ([= <-] & _ & Hne); done]).
Qed.

End StatusMoreFacts.

(** ** Signals among other keys *)

Section MixedSetFacts.
Import Compare Keys.
Open Scope Z_scope.

Lemma hash_of_Signal (x : object) :
  isinstance_Signal x = true -> address (id x) -> hash x = id x.
Proof.
  destruct x as [i []]; [|done]. intros _ Hi. by apply hash_int_small.
Qed.

Lemma py_eq_other (y x : object) :
  id y <> id x ->
  isinstance_Signal y = false \/ isinstance_Signal x = false ->
  exists b, py_eq y x = Return b /\ (b = true -> isinstance_Signal x = false).
Proof.
  destruct y as [i [|n]], x as [j [|m]]; cbn [id]; intros Hid Hcls.
  - by destruct Hcls.
  - exists false. split; [|done]. unfold py_eq, eq_method. cbn.
    by destruct (Z.eqb_spec i j).
  - exists false. split; [|done]. unfold py_eq, eq_method. cbn.
    by destruct (Z.eqb_spec i j).
  - exists (n =? m). split; done.
Qed.

Lemma contains_among (xs : list object) (s : pyset) (x : object) :
  distinct_objects xs -> x ∈ xs ->
  Forall (fun e => e.1 = hash e.2 /\ e.2 ∈ xs) s ->
  exists b, contains x (hash x) s = Return b
            /\ (b = true -> isinstance_Signal x = true -> (hash x, x) ∈ s).
Proof.
  intros [Hid Haddr] Hx. rewrite Forall_forall in Haddr.
  induction 1 as [|[h y] s [Hh Hy] _ (b & IHc & IHb)]; cbn [fst snd] in *.
  - by exists false.
  - cbn [contains]. destruct (Z.eqb_spec (id y) (id x)) as [Heq|Hne].
    + exists true. split; [done|]. intros _ _.
      assert (y = x) as -> by by apply Hid. subst h. by left.
    + assert (forall b', contains x (hash x) s = Return b' ->
                (b' = true -> isinstance_Signal x = true -> (hash x, x) ∈ s) ->
                exists b0, contains x (hash x) s = Return b0
                  /\ (b0 = true -> isinstance_Signal x = true ->
                      (hash x, x) ∈ (h, y) :: s)) as Hrest.
      { intros b' Hc Hb'. exists b'. split; [done|].
        intros ? ?. right. by apply Hb'. }
      destruct (Z.eqb_spec h (hash x)) as [Hhash|_]; [|by eapply Hrest].
      destruct (isinstance_Signal y) eqn:Hys, (isinstance_Signal x) eqn:Hxs.
      * exfalso. apply Hne.
        rewrite <- (hash_of_Signal y), <- (hash_of_Signal x) by eauto. congruence.
      * destruct (py_eq_other y x Hne) as (b' & -> & _); [by right|].
        cbn [Py.bind]. destruct b'; [|by eapply Hrest]. by exists true.
      * destruct (py_eq_other y x Hne) as (b' & -> & Hb'); [by left|].
        cbn [Py.bind]. destruct b'; [|by eapply Hrest].
        specialize (Hb' eq_refl). congruence.
      * destruct (py_eq_other y x Hne) as (b' & -> & _); [by left|].
        cbn [Py.bind]. destruct b'; [|by eapply Hrest]. by exists true.
Qed.

Lemma add_all_among (xs rest : list object) (s : pyset) :
  distinct_objects xs -> (forall x, x ∈ rest -> x ∈ xs) ->
  Forall (fun e => e.1 = hash e.2 /\ e.2 ∈ xs) s ->
  exists s', add_all s rest = Return s'
    /\ (forall e, e ∈ s -> e ∈ s')
    /\ (forall x, x ∈ rest -> isinstance_Signal x = true -> (hash x, x) ∈ s').
Proof.
  intros Hxs. revert s. induction rest as [|x rest IH]; intros s Hrest Hs.
  - exists s. split; [done|]. split; [done|]. intros x Hx. by apply elem_of_nil in Hx.
  - assert (x ∈ xs) as Hx by (apply Hrest; by left).
    destruct (contains_among xs s x Hxs Hx Hs) as (b & Hc & Hb).
    cbn [add_all]. unfold add. rewrite Hc. cbn [Py.bind].
    set (s1 := if b then s else s ++ [(hash x, x)]).
    assert (Forall (fun e => e.1 = hash e.2 /\ e.2 ∈ xs) s1) as Hs1.
    { unfold s1. destruct b; [done|]. apply Forall_app. split; [done|].
      by repeat constructor. }
    assert ((forall e, e ∈ s -> e ∈ s1)
            /\ (isinstance_Signal x = true -> (hash x, x) ∈ s1)) as [Hsub Hin].
    { unfold s1. destruct b.
      - split; [done|]. by apply Hb.
      - split; [intros e He; apply elem_of_app; by left|].
        intros _. apply elem_of_app. right. by left. }
    destruct (IH s1) as (s' & Hadd & Hkeep & Hsig); [|done|].
    { intros y Hy. apply Hrest. by right. }
    exists s'. split; [done|]. split; [by eauto|].
    intros y Hy Hys. apply elem_of_cons in Hy as [->|Hy]; [|by eauto].
    by apply Hkeep, Hin.
Qed.

(** A set (or the keys of a dictionary) takes signals together with
    integers, also integers whose hash is that of a signal, without any
    comparison raising, and holds every one of the signals afterwards:
    between a signal and an integer [_fail] and [int.__eq__] both give
    [NotImplemented], and [==] falls back to identity. *)
Theorem signals_among_other_keys (xs : list object) :
  distinct_objects xs ->
  exists s, add_all [] xs = Return s
    /\ forall x, x ∈ xs -> isinstance_Signal x = true -> (hash x, x) ∈ s.
Proof.
  intros Hxs. destruct (add_all_among xs xs [] Hxs) as (s & Hadd & _ & Hsig);
    [done|constructor|]. by exists s.
Qed.

End MixedSetFacts.

(** ** DeviceCollector: waiting for the connect tasks *)

Section CollectorFacts.
Import Connect Collector.
Variable str_len : nat -> string.
Variable type_name : option exn -> string.
Variable str_other : option exn -> string.
Variable splitlines : string -> list string.

#[local] Abbreviation _wait_for_tasks :=
  (Collector._wait_for_tasks str_len type_name str_other splitlines).
#[local] Abbreviation describe_tasks :=
  (Collector.describe_tasks type_name str_other splitlines).

Lemma string_app_assoc (s1 s2 s3 : string) :
  (s1 +:+ s2) +:+ s3 = s1 +:+ (s2 +:+ s3).
Proof.
  induction s1 as [|a s1 IH]; [done|].
  change (String a ((s1 +:+ s2) +:+ s3) = String a (s1 +:+ (s2 +:+ s3))).
  by f_equal.
Qed.

Lemma with_exception_filter (done : list (result unit * string)) :
  with_exception done
  = if existsb done_cancelled done then Raise CancelledError
    else Return (filter (fun t => negb (returned t)) done).
Proof.
  induction done as [|[r name] done IH]; [done|].
  cbn [with_exception existsb fst]. rewrite filter_cons.
  unfold done_cancelled at 1, returned at 1. cbn [fst].
  destruct r as [[]|e]; cbn [exception Py.bind orb negb].
  - rewrite IH. rewrite decide_False by (by intros []).
    by destruct (existsb done_cancelled done).
  - destruct e; cbn [exception Py.bind orb]; try done; rewrite IH;
      rewrite decide_True by done; by destruct (existsb done_cancelled done).
Qed.

Lemma with_exception_none (done : list (result unit * string)) :
  with_exception done = Return [] <-> Forall (fun t => returned t) done.
Proof.
  rewrite with_exception_filter. split.
  - destruct (existsb done_cancelled done); [done|]. intros [= Hnil].
    apply Forall_forall. intros t Ht.
    destruct (returned t) eqn:Hr; [done|]. exfalso.
    assert (t ∈ filter (fun t => negb (returned t)) done) as Hin.
    { apply list_elem_of_filter. by rewrite Hr. }
    rewrite Hnil in Hin. by apply elem_of_nil in Hin.
  - intros Hall. assert (existsb done_cancelled done = false) as ->.
    { apply not_true_is_false. intros Hex. apply existsb_exists in Hex.
      destruct Hex as ([r name] & Hin & Hc). apply list_elem_of_In in Hin.
      rewrite Forall_forall in Hall. specialize (Hall _ Hin).
      unfold returned, done_cancelled in Hc, Hall. cbn [fst] in Hc, Hall.
      destruct r as [[]|e']; [discriminate Hc | exact Hall]. }
    f_equal. induction Hall as [|t done Ht _ IH]; [done|].
    rewrite filter_cons, decide_False; [done|].
    destruct (returned t); simpl in Ht |- *; [by intros [] | destruct Ht].
Qed.

(** [_wait_for_tasks] comes back without a message exactly when no task
    is pending and every task that is done has returned: a timeout, an
    exception or a cancelled task each lead to a message or to an
    exception. *)
Theorem _wait_for_tasks_quiet (done : list (result unit * string))
    (pending : list (coro * string)) :
  done <> [] \/ pending <> [] ->
  _wait_for_tasks done pending = Return None
  <-> pending = [] /\ Forall (fun t => returned t) done.
Proof.
  intros Hne. unfold Collector._wait_for_tasks.
  rewrite bool_decide_eq_false_2 by (intros [-> ->]; by destruct Hne).
  cbn [Py.bind]. split.
  - destruct (with_exception done) as [failed|e] eqn:Hfailed; [|done].
    cbn [Py.bind]. destruct pending as [|t pending]; cbn [map app].
    + destruct failed as [|f failed].
      * intros _. split; [done|]. by apply with_exception_none.
      * destruct (describe_tasks _ _); done.
    + destruct (await_suppressed _); [|done]. cbn [Py.bind].
      destruct (describe_tasks _ _); done.
  - intros [-> Hall]. apply with_exception_none in Hall. by rewrite Hall.
Qed.

Lemma await_suppressed_escapes (before after : list (coro * string))
    (t : coro * string) (e : exn) :
  Forall (fun t => suppressed t) before ->
  on_cancel t.1 = Raise e -> is_Exception e = false ->
  await_suppressed (before ++ t :: after) = Raise e.
Proof.
  intros Hbefore Ht He. induction Hbefore as [|b before Hb _ IH];
    cbn [app await_suppressed].
  - rewrite Ht. unfold try_except. by rewrite He.
  - unfold suppressed in Hb. destruct (on_cancel b.1) as [[]|e'];
      cbn [try_except Py.bind]; [done|].
    destruct (is_Exception e'); [done|]. by destruct Hb.
Qed.

(** A pending task that ends, once cancelled, with something other than
    an [Exception] (a [CancelledError] it did not catch, say) is not
    covered by [suppress(Exception)]: what it raises leaves
    [_wait_for_tasks], and no message is logged. *)
Theorem _wait_for_tasks_lets_cancellation_through
    (done : list (result unit * string)) (before after : list (coro * string))
    (t : coro * string) (e : exn) :
  existsb done_cancelled done = false ->
  Forall (fun t => suppressed t) before ->
  on_cancel t.1 = Raise e -> is_Exception e = false ->
  _wait_for_tasks done (before ++ t :: after) = Raise e.
Proof.
  intros Hdone Hbefore Ht He. unfold Collector._wait_for_tasks.
  rewrite bool_decide_eq_false_2 by (intros [_ Hnil]; by destruct before).
  cbn [Py.bind]. rewrite with_exception_filter, Hdone. cbn [Py.bind].
  rewrite (await_suppressed_escapes before after t e) by done.
  destruct (map _ (before ++ t :: after) ++ _) as [|x l] eqn:Hl; [|done].
  apply app_eq_nil in Hl as [Hl _]. apply fmap_nil_inv in Hl.
  by destruct before.
Qed.

Lemma await_suppressed_all (pending : list (coro * string)) :
  Forall (fun t => suppressed t) pending -> await_suppressed pending = Return tt.
Proof.
  induction 1 as [|t pending Ht _ IH]; [done|]. cbn [await_suppressed].
  unfold suppressed in Ht. destruct (on_cancel t.1) as [[]|e];
    cbn [try_except Py.bind]; [done|].
  by destruct (is_Exception e).
Qed.

Lemma describe_tasks_extends (msg : string) (l : list (result unit * string)) :
  Forall (fun t => done_cancelled t = false) l ->
  exists rest, describe_tasks msg l = Return (msg +:+ rest).
Proof.
  intros Hl. revert msg. induction Hl as [|[r name] l Hr _ IH]; intros msg.
  - exists "". cbn [Collector.describe_tasks]. f_equal.
    induction msg as [|a msg IHm]; [done|].
    change (String a msg = String a (msg +:+ "")). by f_equal.
  - cbn [Collector.describe_tasks]. unfold describe_task. cbn [fst snd].
    assert (exists e, exception r = Return e) as [e ->].
    { unfold done_cancelled in Hr. cbn [fst] in Hr.
      destruct r as [[]|[]]; cbn [exception]; by eauto. }
    cbn [Py.bind]. case_bool_decide.
    + destruct (IH ((msg +:+ nl +:+ "  " +:+ name +:+ ": " +:+ type_name e)
                    +:+ str str_other e)) as [rest ->].
      eexists. by rewrite !string_app_assoc.
    + destruct (IH ((msg +:+ nl +:+ "  " +:+ name +:+ ": " +:+ type_name e)
                    +:+ String.concat ""
                          (map (fun line => nl +:+ "    " +:+ line)
                               (splitlines (str str_other e)))))
        as [rest ->].
      eexists. by rewrite !string_app_assoc.
Qed.

(** When tasks are pending or have failed, and every pending one ends,
    once cancelled, by returning or with an [Exception], a message is
    logged; it starts with the count of the tasks that were pending or
    had raised, followed by " Devices did not connect:". *)
Theorem _wait_for_tasks_counts (done : list (result unit * string))
    (pending : list (coro * string)) :
  existsb done_cancelled done = false ->
  Forall (fun t => suppressed t) pending ->
  ~ (pending = [] /\ Forall (fun t => returned t) done) ->
  exists rest,
    _wait_for_tasks done pending
    = Return (Some (str_len (length pending
                             + length (filter (fun t => negb (returned t)) done))
                    +:+ " Devices did not connect:" +:+ rest)).
Proof.
  intros Hdone Hpending Hsome. unfold Collector._wait_for_tasks.
  rewrite bool_decide_eq_false_2.
  2:{ intros [-> ->]. apply Hsome. by split. }
  cbn [Py.bind]. rewrite with_exception_filter, Hdone. cbn [Py.bind].
  set (failed := filter (fun t => negb (returned t)) done).
  set (cancelled := map (fun t : coro * string => (on_cancel t.1, t.2)) pending).
  assert (length (cancelled ++ failed) = length pending + length failed) as Hlen.
  { unfold cancelled. by rewrite length_app, length_map. }
  destruct (cancelled ++ failed) as [|x l] eqn:Hl.
  { exfalso. apply Hsome. apply app_eq_nil in Hl as [Hc Hf].
    apply fmap_nil_inv in Hc. split; [done|].
    apply with_exception_none. by rewrite with_exception_filter, Hdone, <- Hf. }
  rewrite await_suppressed_all by done. cbn [Py.bind].
  rewrite <- Hl in Hlen |- *.
  destruct (describe_tasks_extends
              (str_len (length (cancelled ++ failed)) +:+ " Devices did not connect:")
              (cancelled ++ failed)) as [rest Hrest].
  - apply Forall_app. split.
    + unfold cancelled. apply Forall_fmap. eapply Forall_impl; [exact Hpending|].
      intros t Ht. unfold suppressed in Ht. unfold compose, done_cancelled.
      cbn [fst]. destruct (on_cancel t.1) as [[]|[]]; simpl in Ht |- *; done.
    + apply Forall_forall. intros t Ht. unfold failed in Ht.
      apply list_elem_of_filter in Ht as [_ Ht].
      apply not_true_is_false. intros Hc. apply not_true_iff_false in Hdone.
      apply Hdone. apply existsb_exists. exists t. split; [|done].
      by apply list_elem_of_In.
  - rewrite Hrest. cbn [Py.bind]. exists rest.
    by rewrite Hlen, string_app_assoc.
Qed.

End CollectorFacts.

(** ** More on the orchestrator and on names *)

Section ConnectMoreFacts.
Import Connect.

Lemma wait_for_connection_cancelled_propagates_witness :
  wait_for_connection (Some [])
    (("a", Coro (Return tt) (Raise (NotConnected ["ca://A"])))
       :: ("b", plain_child) :: three_children)
  = Raise CancelledError.
Proof.
  apply (wait_for_connection_cancelled_propagates []
           [("a", Coro (Return tt) (Raise (NotConnected ["ca://A"])))]
           three_children ("b", plain_child) CancelledError).
  - repeat constructor.
  - reflexivity.
  - reflexivity.
Defined.

End ConnectMoreFacts.

Section UnderscoreFacts.
Import Naming Paths.

Lemma rstrip_underscores (n : nat) : rstrip_ (underscores n) = "".
Proof. induction n as [|n IH]; [done|]. cbn [underscores rstrip_]. by rewrite IH. Qed.

Lemma rstrip_trailing (k : string) (n : nat) :
  rstrip_ (k +:+ underscores n) = rstrip_ k.
Proof.
  induction k as [|a k IH].
  - apply rstrip_underscores.
  - change (String a k +:+ underscores n) with (String a (k +:+ underscores n)).
    cbn [rstrip_]. by rewrite IH.
Qed.

(** Two Signals held by attributes that differ only in trailing
    underscores are given the same name when their composite is named. *)
Theorem set_name_trailing_underscores (name k n1 n2 : string) (m : nat)
    (p p1 p2 : bool) (dict : list (string * option device)) :
  truthy name = true ->
  attribute k dict = Some (Signal n1 p1) ->
  attribute (k +:+ underscores m) dict = Some (Signal n2 p2) ->
  let named := set_name name (StandardReadable "" p dict) in
  descend [k] named = Some (Signal (name +:+ "-" +:+ rstrip_ k) true)
  /\ descend [k +:+ underscores m] named
     = Some (Signal (name +:+ "-" +:+ rstrip_ k) true).
Proof.
  intros Hname H1 H2 named. unfold named. split.
  - rewrite child_set_name, H1 by done. done.
  - rewrite child_set_name, H2 by done. cbn. by rewrite rstrip_trailing.
Qed.

Lemma set_name_trailing_underscores_witness :
  let named :=
    set_name "m" (StandardReadable "" false
                    [("stop", Some (Signal "" false));
                     ("stop_", Some (Signal "" false))]) in
  descend ["stop"] named = Some (Signal "m-stop" true)
  /\ descend ["stop_"] named = Some (Signal "m-stop" true).
Proof.
  apply (set_name_trailing_underscores "m" "stop" "" "" 1 false false false);
    reflexivity.
Defined.

End UnderscoreFacts.

Section MoreExamples.
Import Observe Order Readable Config Status Connect Collector.

Lemma observe_value_in_order_witness :
  let w := consume [Next; Notify 1; Notify 2; Next; Notify 3]%nat
                   (fresh {[5%nat]} 9%nat) in
  yielded w ++ q w = [1; 2; 3]%nat /\ length (yielded w) <= 2.
Proof.
  destruct (observe_value_in_order {[5%nat]} 9%nat
              [Notify 1; Notify 2; Next; Notify 3]%nat) as (Hq & Hn & _).
  - repeat constructor.
  - split; [exact Hq | exact Hn].
Defined.

Lemma observe_value_misses_earlier_values_witness :
  yielded (consume [Notify 1; Notify 2; Next; Notify 3]%nat (fresh {[5%nat]} 9%nat))
  = [3%nat].
Proof.
  rewrite (observe_value_misses_earlier_values {[5%nat]} 9%nat [1; 2]%nat
             [Next; Notify 3%nat]).
  - reflexivity.
  - rewrite elem_of_singleton. discriminate.
Defined.

Lemma observe_value_finished_for_good_witness :
  consume ([Next; Notify 1%nat; Close] ++ [Next; Notify 2%nat; Close])
          (fresh {[5%nat]} 9%nat)
  = consume [Next; Notify 1%nat; Close] (fresh {[5%nat]} 9%nat).
Proof.
  apply observe_value_finished_for_good.
  - rewrite elem_of_singleton. discriminate.
  - reflexivity.
Defined.

Lemma merge_last_wins_witness :
  get "mover" (merge_gathered_dicts
                 [[("mover", 1%nat); ("mover-velocity", 2%nat)];
                  [("mover-units", 3%nat)]; [("mover", 4%nat)]])
  = Some 4%nat.
Proof.
  rewrite merge_last_wins; [reflexivity|].
  repeat constructor; rewrite ?list_elem_of_singleton, ?elem_of_nil;
    by (inversion 1 || intros []).
Defined.

Lemma describe_has_keys_of_read_witness :
  keys (describe (Readable.__init__ "X:" "mover" (Some readback) [velocity] [] []))
  = keys (read (Readable.__init__ "X:" "mover" (Some readback) [velocity] [] [])).
Proof.
  apply (describe_has_keys_of_read
           (Readable.__init__ "X:" "mover" (Some readback) [velocity] [] []));
    repeat constructor.
Defined.

Lemma success_raises_what_it_does_not_catch_witness :
  success (Status.__init__ (T := unit)
             (Some (Raise (OtherBaseException "GeneratorExit"))))
  = Raise (OtherBaseException "GeneratorExit").
Proof.
  apply success_raises_what_it_does_not_catch; [reflexivity|].
  split; [reflexivity|]. split; [reflexivity|discriminate].
Defined.

Lemma _wait_for_tasks_quiet_witness :
  Collector._wait_for_tasks (fun _ => "1") class_name (fun _ => "") one_line
    [(Return tt, "t1x"); (Return tt, "t1y")] []
  = Return None.
Proof.
  apply _wait_for_tasks_quiet; [by left|]. split; [reflexivity|repeat constructor].
Defined.

Lemma _wait_for_tasks_lets_cancellation_through_witness :
  Collector._wait_for_tasks (fun _ => "2") class_name (fun _ => "") one_line
    [(Return tt, "t1x")]
    [(Coro (Return tt) (Raise (NotConnected ["ca://Y"])), "t1y");
     (plain_child, "t1z")]
  = Raise CancelledError.
Proof.
  apply (_wait_for_tasks_lets_cancellation_through _ _ _ _ _
           [(Coro (Return tt) (Raise (NotConnected ["ca://Y"])), "t1y")] []
           (plain_child, "t1z") CancelledError).
  - reflexivity.
  - repeat constructor.
  - reflexivity.
  - reflexivity.
Defined.

Lemma _wait_for_tasks_counts_witness :
  exists rest,
    Collector._wait_for_tasks (fun _ => "2") class_name (fun _ => "") one_line
      [(Return tt, "t1x"); (Raise (OtherException "RuntimeError"), "t1w")]
      [(Coro (Return tt) (Raise (NotConnected ["ca://Y"])), "t1y")]
    = Return (Some ("2" +:+ " Devices did not connect:" +:+ rest)).
Proof.
  apply (_wait_for_tasks_counts (fun _ => "2") class_name (fun _ => "") one_line
           [(Return tt, "t1x"); (Raise (OtherException "RuntimeError"), "t1w")]
           [(Coro (Return tt) (Raise (NotConnected ["ca://Y"])), "t1y")]).
  - reflexivity.
  - repeat constructor.
  - intros [Hnil _]. discriminate Hnil.
Defined.

End MoreExamples.

Section KeysExamples.
Import Compare Keys.
Open Scope Z_scope.

Lemma signals_among_other_keys_witness :
  exists s, add_all [] mixed_keys = Return s
    /\ (hash (Signal 140234), Signal 140234) ∈ s
    /\ (hash (Signal 140298), Signal 140298) ∈ s.
Proof.
  destruct (signals_among_other_keys mixed_keys) as (s & Hadd & Hsig).
  - split.
    + intros x y Hx Hy. unfold mixed_keys in Hx, Hy.
      rewrite !elem_of_cons, !elem_of_nil in Hx, Hy.
      destruct Hx as [->|[->|[->|[->|[]]]]], Hy as [->|[->|[->|[->|[]]]]];
        cbn [id Signal]; intros Hid; (reflexivity || discriminate Hid).
    + repeat constructor; cbn [id Signal]; intros Hs;
        (discriminate Hs || (unfold address, hash_modulus; lia)).
  - exists s. split; [exact Hadd|]. split; apply Hsig;
      (reflexivity || (unfold mixed_keys; rewrite !elem_of_cons; tauto)).
Defined.

End KeysExamples.
